(** * Polygon topology, edge snapping, door routing and the drawing tools

    A shallow embedding of
    - [src/lib/drawing-tools/polygon/CustomPolygon.ts]
      ([addDoor], [removeDoor], [addVertexOnEdge], [updateObjects]),
    - [src/tools/feature-tools/shape-tools/door.ts]
      ([getPointToLineDistance], [findClosestEdgePoint],
      [findPathBetweenPoints], [createPreviewPoint], [updatePreviewLine],
      [handleMouseMove], [handleMouseDown], [cleanup]),
    - [src/lib/drawing-tools/utils.ts]
      ([createDrawingContext], [initializeDrawingTool]),
    - the rectangle and triangle tools ([drawRectangle], [drawTriangle])
      and the hit test of the line tool ([ConnectionLine.containsPoint],
      [ConnectionLine.distanceFromPointToLine]),
    followed by the properties the specification states about them, and
    by further properties of the code. *)

From Stdlib Require Import ZArith Floats.
From stdpp Require Import base option list strings gmap.

Set Default Proof Using "Type".
Set Warnings "-clear-no-such-hyp".

(* ===================================================================== *)
(** * Part I.  The embedding                                              *)
(* ===================================================================== *)

(** ** JavaScript numbers

    The code computes with JavaScript numbers, IEEE 754 binary64.  The
    embedding is written over the operations the two source files use,
    and run at [float]. *)

Class JSNumber (num : Type) := {
  (** integer literals of the source text: [0], [1], [5], [6], [10] *)
  lit : Z → num;
  Infinity : num;
  num_add : num → num → num;
  num_sub : num → num → num;
  num_mul : num → num → num;
  num_div : num → num → num;
  Math_sqrt : num → num;
  Math_max : num → num → num;
  Math_min : num → num → num;
  (** [a < b], [a <= b], [a >= b]: all three are [false] on [NaN] *)
  num_lt : num → num → bool;
  num_le : num → num → bool;
  num_ge : num → num → bool;
}.

Declare Scope js_scope.
Delimit Scope js_scope with js.
Infix "+" := num_add : js_scope.
Infix "-" := num_sub : js_scope.
Infix "*" := num_mul : js_scope.
Infix "/" := num_div : js_scope.
Infix "<?" := num_lt (at level 70) : js_scope.
Infix "<=?" := num_le (at level 70) : js_scope.
Infix ">=?" := num_ge (at level 70) : js_scope.

(** [Math.pow(b, 2)], the only exponent the code uses: the square. *)
Definition Math_pow2 {num : Type} `{JSNumber num} (b : num) : num := (b * b)%js.

(** *** binary64 *)

(** [Math.max] and [Math.min] of ECMAScript: [NaN] if either argument is
    [NaN], and [+0] counts as larger than [-0]. *)
Definition float_max (a b : float) : float :=
  if is_nan a || is_nan b then nan
  else if (a <? b)%float then b
  else if (b <? a)%float then a
  else match classify a with NZero => b | _ => a end.

Definition float_min (a b : float) : float :=
  if is_nan a || is_nan b then nan
  else if (a <? b)%float then a
  else if (b <? a)%float then b
  else match classify a with PZero => b | _ => a end.

(** Integer literals; exact for the small constants of the source. *)
Definition float_lit (z : Z) : float :=
  if (z <? 0)%Z then (- of_uint63 (Uint63.of_Z (- z)))%float
  else of_uint63 (Uint63.of_Z z).

#[export] Instance float_JSNumber : JSNumber float := {
  lit := float_lit;
  Infinity := infinity;
  num_add := PrimFloat.add;
  num_sub := PrimFloat.sub;
  num_mul := PrimFloat.mul;
  num_div := PrimFloat.div;
  Math_sqrt := PrimFloat.sqrt;
  Math_max := float_max;
  Math_min := float_min;
  num_lt := PrimFloat.ltb;
  num_le := PrimFloat.leb;
  num_ge := λ a b, PrimFloat.leb b a;
}.

(** ** Outcomes of a call

    A call returns, throws a [TypeError] (a property read on [null] or
    [undefined]), or, for the one [while] loop of the source, exhausts
    the fuel that bounds the loop in the embedding. *)

Inductive outcome (A : Type) : Type :=
  | Returns (a : A)
  | TypeError
  | OutOfFuel.
Arguments Returns {A} a.
Arguments TypeError {A}.
Arguments OutOfFuel {A}.

(** ** Arrays *)

Module Array.

(** [l.forEach((a, i) => ...)] with the mutated locals as state [s]. *)
Fixpoint forEach_from {A St : Type} (f : St → A → nat → St)
    (i : nat) (l : list A) (s : St) : St :=
  match l with
  | [] => s
  | a :: l' => forEach_from f (S i) l' (f s a i)
  end.

Definition forEach {A St : Type} (f : St → A → nat → St) (l : list A) (s : St) : St :=
  forEach_from f 0 l s.

(** [l.indexOf(a)]: position of the first element identical to [a],
    or [-1]. *)
Fixpoint indexOf_from `{EqDecision A} (i : Z) (l : list A) (a : A) : Z :=
  match l with
  | [] => (-1)%Z
  | b :: l' => if decide (b = a) then i else indexOf_from (i + 1)%Z l' a
  end.

Definition indexOf `{EqDecision A} (l : list A) (a : A) : Z :=
  indexOf_from 0%Z l a.

(** [l.splice(start, deleteCount, ...items)]: ECMAScript clamps
    [start] (counting from the end when negative) and [deleteCount]. *)
Definition splice {A : Type} (l : list A) (start : Z) (deleteCount : Z)
    (items : list A) : list A :=
  let len := Z.of_nat (length l) in
  let actualStart :=
    if (start <? 0)%Z then Z.max (len + start) 0 else Z.min start len in
  let actualDeleteCount := Z.min (Z.max deleteCount 0) (len - actualStart) in
  take (Z.to_nat actualStart) l ++ items
    ++ drop (Z.to_nat (actualStart + actualDeleteCount)) l.

End Array.

(** ** [fabric.Point] and the coordinates of a [fabric.Line] *)

Module fabric.

Record Point (num : Type) : Type := mkPoint { x : num; y : num }.
Arguments mkPoint {num} x y.
Arguments x {num} _.
Arguments y {num} _.

Record Line (num : Type) : Type := mkLine { x1 : num; y1 : num; x2 : num; y2 : num }.
Arguments mkLine {num} x1 y1 x2 y2.
Arguments x1 {num} _.
Arguments y1 {num} _.
Arguments x2 {num} _.
Arguments y2 {num} _.

End fabric.
Import fabric.

(** ** Objects and references

    Every canvas object (vertex, edge, door path, preview) has an
    identity; [===] and [indexOf] compare identities.  A reference is a
    number handed out by the allocation counter of the store. *)

Abbreviation ref := nat.

(** A child of the group: a vertex, an edge or a door path. *)
Inductive FabricObject : Type :=
  | OfVertex (v : ref)
  | OfEdge (e : ref)
  | OfPath (p : ref).

#[export] Instance FabricObject_eq_dec : EqDecision FabricObject.
Proof. solve_decision. Defined.

(** Modelled from the spec: the classes [PolygonVertex] and [PolygonEdge]
    are imported by [CustomPolygon.ts] but are not under src/.  A vertex
    is a 2D point with the list of its incident edges; an edge is an
    ordered pair (source, target) with [prevEdge]/[nextEdge] links, which
    are unset on a newly constructed edge. *)
Module PolygonVertex.
Record t (num : Type) : Type := mk {
  left : num;
  top : num;
  edges : list ref;
}.
Arguments mk {num} left top edges.
Arguments left {num} _.
Arguments top {num} _.
Arguments edges {num} _.
End PolygonVertex.

Module PolygonEdge.
Record t (num : Type) : Type := mk {
  source : ref;
  target : ref;
  prevEdge : option ref;
  nextEdge : option ref;
  stroke : string;
  strokeWidth : num;
}.
Arguments mk {num} source target prevEdge nextEdge stroke strokeWidth.
Arguments source {num} _.
Arguments target {num} _.
Arguments prevEdge {num} _.
Arguments nextEdge {num} _.
Arguments stroke {num} _.
Arguments strokeWidth {num} _.
End PolygonEdge.

(** ** [CustomPolygon.ts] *)

Module CustomPolygon.

(** The fields [vertices], [edges], [doors] and the group's child list
    [_objects]. *)
Record t : Type := mk {
  vertices : list ref;
  edges : list ref;
  doors : list ref;
  _objects : list FabricObject;
}.

Section Methods.
Context {num : Type} `{JSNumber num}.
Local Open Scope js_scope.

(** The store: the objects reachable from the polygon [this], and the
    allocation counter.  Rendering state (canvas association, cached
    coordinates, event subscriptions, the door transform flags that
    [updateDoors] flattens) is left out: no sequence and no link of the
    polygon depends on it. *)
Record World : Type := mkWorld {
  vertexStore : gmap ref (PolygonVertex.t num);
  edgeStore : gmap ref (PolygonEdge.t num);
  pathStore : gmap ref (list (Point num));
  nextRef : ref;
  this : t;
}.

(** State and [TypeError] monad of a method body. *)
Definition M (A : Type) : Type := World → outcome (A * World).

Definition ret {A : Type} (a : A) : M A := λ w, Returns (a, w).

Definition bind {A B : Type} (m : M A) (k : A → M B) : M B :=
  λ w, match m w with
       | Returns (a, w') => k a w'
       | TypeError => TypeError
       | OutOfFuel => OutOfFuel
       end.

Notation "'let!' a ':=' m 'in' k" := (bind m (λ a, k))
  (at level 10, a name, m at level 200, k at level 200).
Notation "m ;; k" := (bind m (λ _, k))
  (at level 100, k at level 200, right associativity).

(** Property reads through a reference. *)
Definition readVertex (v : ref) : M (PolygonVertex.t num) :=
  λ w, match vertexStore w !! v with
       | Some o => Returns (o, w)
       | None => TypeError
       end.

Definition readEdge (e : ref) : M (PolygonEdge.t num) :=
  λ w, match edgeStore w !! e with
       | Some o => Returns (o, w)
       | None => TypeError
       end.

Definition readThis : M t := λ w, Returns (this w, w).

(** Property writes. *)
Definition writeVertex (v : ref) (f : PolygonVertex.t num → PolygonVertex.t num)
    : M unit :=
  λ w, Returns (tt, mkWorld (alter f v (vertexStore w)) (edgeStore w)
                      (pathStore w) (nextRef w) (this w)).

Definition writeEdge (e : ref) (f : PolygonEdge.t num → PolygonEdge.t num)
    : M unit :=
  λ w, Returns (tt, mkWorld (vertexStore w) (alter f e (edgeStore w))
                      (pathStore w) (nextRef w) (this w)).

Definition writeThis (f : t → t) : M unit :=
  λ w, Returns (tt, mkWorld (vertexStore w) (edgeStore w) (pathStore w)
                      (nextRef w) (f (this w))).

Definition set_edges (es : list ref) (v : PolygonVertex.t num) : PolygonVertex.t num :=
  PolygonVertex.mk (PolygonVertex.left v) (PolygonVertex.top v) es.

Definition set_prevEdge (p : option ref) (e : PolygonEdge.t num) : PolygonEdge.t num :=
  PolygonEdge.mk (PolygonEdge.source e) (PolygonEdge.target e) p
    (PolygonEdge.nextEdge e) (PolygonEdge.stroke e) (PolygonEdge.strokeWidth e).

Definition set_nextEdge (n : option ref) (e : PolygonEdge.t num) : PolygonEdge.t num :=
  PolygonEdge.mk (PolygonEdge.source e) (PolygonEdge.target e)
    (PolygonEdge.prevEdge e) n (PolygonEdge.stroke e) (PolygonEdge.strokeWidth e).

(** [new PolygonVertex({ left, top, ... })] *)
Definition new_PolygonVertex (left top : num) : M ref :=
  λ w, Returns (nextRef w,
         mkWorld (<[nextRef w := PolygonVertex.mk left top []]> (vertexStore w))
           (edgeStore w) (pathStore w) (S (nextRef w)) (this w)).

(** [new PolygonEdge(source, target, { stroke, strokeWidth, ... })] *)
Definition new_PolygonEdge (source target : ref) (stroke : string)
    (strokeWidth : num) : M ref :=
  λ w, Returns (nextRef w,
         mkWorld (vertexStore w)
           (<[nextRef w :=
                PolygonEdge.mk source target None None stroke strokeWidth]>
              (edgeStore w))
           (pathStore w) (S (nextRef w)) (this w)).

(** [new fabric.Path(pathString, ...)]: the path string lists the points. *)
Definition new_Path (points : list (Point num)) : M ref :=
  λ w, Returns (nextRef w,
         mkWorld (vertexStore w) (edgeStore w)
           (<[nextRef w := points]> (pathStore w)) (S (nextRef w)) (this w)).

(** [updateObjects()]: rebuilds the child list. *)
Definition updateObjects : M unit :=
  writeThis (λ p, mk (vertices p) (edges p) (doors p)
                     ((OfVertex <$> vertices p) ++ (OfEdge <$> edges p)
                        ++ (OfPath <$> doors p))).

Definition addDoor (door : ref) : M unit :=
  writeThis (λ p, mk (vertices p) (edges p) (doors p ++ [door]) (_objects p)) ;;
  writeThis (λ p, mk (vertices p) (edges p) (doors p) (_objects p ++ [OfPath door])) ;;
  updateObjects.

Definition removeDoor (door : ref) : M unit :=
  let! p := readThis in
  let doorIndex := Array.indexOf (doors p) door in
  if (doorIndex >? -1)%Z then
    writeThis (λ p, mk (vertices p) (edges p)
                       (Array.splice (doors p) doorIndex 1 []) (_objects p)) ;;
    (let! p := readThis in
     let objectIndex := Array.indexOf (_objects p) (OfPath door) in
     if (objectIndex >? -1)%Z then
       writeThis (λ p, mk (vertices p) (edges p) (doors p)
                          (Array.splice (_objects p) objectIndex 1 []))
     else ret tt) ;;
    updateObjects
  else ret tt.

Definition addVertexOnEdge (edge : ref) (point : Point num) : M unit :=
  (* 1 *)
  let! newVertex := new_PolygonVertex (x point - lit 6) (y point - lit 6) in
  (* 2 *)
  let! e := readEdge edge in
  let! newEdge1 := new_PolygonEdge (PolygonEdge.source e) newVertex
                  (PolygonEdge.stroke e) (PolygonEdge.strokeWidth e) in
  let! newEdge2 := new_PolygonEdge newVertex (PolygonEdge.target e)
                  (PolygonEdge.stroke e) (PolygonEdge.strokeWidth e) in
  (* 4 *)
  writeVertex newVertex (set_edges [newEdge1; newEdge2]) ;;
  (* 5 *)
  (let! src := readVertex (PolygonEdge.source e) in
   writeVertex (PolygonEdge.source e)
     (set_edges ((λ e', if decide (e' = edge) then newEdge1 else e')
                   <$> PolygonVertex.edges src))) ;;
  (let! tgt := readVertex (PolygonEdge.target e) in
   writeVertex (PolygonEdge.target e)
     (set_edges ((λ e', if decide (e' = edge) then newEdge2 else e')
                   <$> PolygonVertex.edges tgt))) ;;
  (* 6 *)
  writeEdge newEdge1 (set_nextEdge (Some newEdge2)) ;;
  writeEdge newEdge2 (set_prevEdge (Some newEdge1)) ;;
  (let! e := readEdge edge in
   match PolygonEdge.prevEdge e with
   | Some prev =>
       writeEdge prev (set_nextEdge (Some newEdge1)) ;;
       writeEdge newEdge1 (set_prevEdge (Some prev))
   | None => ret tt
   end) ;;
  (let! e := readEdge edge in
   match PolygonEdge.nextEdge e with
   | Some next =>
       writeEdge next (set_prevEdge (Some newEdge2)) ;;
       writeEdge newEdge2 (set_nextEdge (Some next))
   | None => ret tt
   end) ;;
  (* 7 *)
  (let! p := readThis in
   let targetIndex := Array.indexOf (vertices p) (PolygonEdge.target e) in
   writeThis (λ p, mk (Array.splice (vertices p) targetIndex 0 [newVertex])
                      (edges p) (doors p) (_objects p))) ;;
  (let! p := readThis in
   let edgeIndex := Array.indexOf (edges p) edge in
   writeThis (λ p, mk (vertices p)
                      (Array.splice (edges p) edgeIndex 1 [newEdge1; newEdge2])
                      (doors p) (_objects p))) ;;
  (* 8 *)
  writeThis (λ p, mk (vertices p) (edges p) (doors p)
                     (filter (λ obj, obj ≠ OfEdge edge) (_objects p))) ;;
  (* 9 *)
  writeThis (λ p, mk (vertices p) (edges p) (doors p)
                     (_objects p ++ [OfVertex newVertex; OfEdge newEdge1;
                                     OfEdge newEdge2])) ;;
  (* 14 *)
  writeThis (λ p, mk (vertices p) (edges p) (doors p)
                     ((OfVertex <$> vertices p) ++ (OfEdge <$> edges p)
                        ++ (OfPath <$> doors p))) ;;
  (* 15 *)
  updateObjects.

(** [k] applications of [e => e.nextEdge], starting from [e]. *)
Fixpoint follow_nextEdge (w : World) (k : nat) (e : ref) : option ref :=
  match k with
  | 0 => Some e
  | S k' =>
      match edgeStore w !! e with
      | Some o =>
          match PolygonEdge.nextEdge o with
          | Some e' => follow_nextEdge w k' e'
          | None => None
          end
      | None => None
      end
  end.

End Methods.

Arguments World : clear implicits.

End CustomPolygon.

(** ** [door.ts] *)

Section Door.
Context {num : Type} `{JSNumber num}.
Local Open Scope js_scope.

(** The record [{ distance, point: projectionPoint, t }]. *)
Record PointToLine : Type := mkPointToLine {
  distance : num;
  point : Point num;
  t : num;
}.

Definition getPointToLineDistance (point lineStart lineEnd : Point num) : PointToLine :=
  let lineVector := mkPoint (x lineEnd - x lineStart) (y lineEnd - y lineStart) in
  let pointVector := mkPoint (x point - x lineStart) (y point - y lineStart) in
  let lineLengthSq := x lineVector * x lineVector + y lineVector * y lineVector in
  let t := Math_max (lit 0) (Math_min (lit 1)
             ((x pointVector * x lineVector + y pointVector * y lineVector)
                / lineLengthSq)) in
  let projectionPoint :=
    mkPoint (x lineStart + t * x lineVector) (y lineStart + t * y lineVector) in
  let distance :=
    Math_sqrt (Math_pow2 (x point - x projectionPoint)
               + Math_pow2 (y point - y projectionPoint)) in
  mkPointToLine distance projectionPoint t.

(** [object.edges] as [door.ts] reads it: the coordinates
    [x1, y1, x2, y2] of each edge, in sequence order.  An edge object is
    identified by its position in this sequence. *)
Variable edges : list (Line num).

(** [toLocalPoint]: the inverse of the polygon's current transform
    matrix, computed by the canvas library. *)
Variable toLocalPoint : Point num → Point num.

Definition THRESHOLD : num := lit 10.

(** The locals [closestPoint], [minDistance], [closestEdge]. *)
Record Closest : Type := mkClosest {
  closestPoint : option (Point num);
  minDistance : num;
  closestEdge : option nat;
}.

Definition findClosestEdgePoint_body (localPointer : Point num)
    (st : Closest) (edge : Line num) (i : nat) : Closest :=
  let p1 := mkPoint (x1 edge) (y1 edge) in
  let p2 := mkPoint (x2 edge) (y2 edge) in
  let result := getPointToLineDistance localPointer p1 p2 in
  if (distance result <? THRESHOLD) && (t result >=? lit 0) && (t result <=? lit 1)
  then
    if distance result <? minDistance st
    then mkClosest (Some (point result)) (distance result) (Some i)
    else st
  else st.

Definition findClosestEdgePoint (globalPointer : Point num)
    : option (Point num * nat) :=
  let localPointer := toLocalPoint globalPointer in
  let st := Array.forEach (findClosestEdgePoint_body localPointer) edges
              (mkClosest None Infinity None) in
  match closestPoint st, closestEdge st with
  | Some closestPoint, Some closestEdge => Some (closestPoint, closestEdge)
  | _, _ => None
  end.

(** The locals [startEdgeIndex], [endEdgeIndex] and the two parameters
    [localStart], [localEnd], which the loop overwrites. *)
Record Snap : Type := mkSnap {
  startEdgeIndex : Z;
  endEdgeIndex : Z;
  localStart : Point num;
  localEnd : Point num;
}.

(** The acceptance test of the routing loop. *)
Definition accepted5 (r : PointToLine) : bool :=
  (distance r <? lit 5) && (t r >=? lit 0) && (t r <=? lit 1).

Definition findPathBetweenPoints_body (st : Snap) (edge : Line num) (i : nat) : Snap :=
  let p1 := mkPoint (x1 edge) (y1 edge) in
  let p2 := mkPoint (x2 edge) (y2 edge) in
  let startResult := getPointToLineDistance (localStart st) p1 p2 in
  let endResult := getPointToLineDistance (localEnd st) p1 p2 in
  let st :=
    if accepted5 startResult
    then mkSnap (Z.of_nat i) (endEdgeIndex st) (point startResult) (localEnd st)
    else st in
  if accepted5 endResult
  then mkSnap (startEdgeIndex st) (Z.of_nat i) (localStart st) (point endResult)
  else st.

(** The [forEach] of [findPathBetweenPoints]. *)
Definition resnap (localStart localEnd : Point num) : Snap :=
  Array.forEach findPathBetweenPoints_body edges
    (mkSnap (-1) (-1) localStart localEnd).

(** [edges[i]] for an integer [i]. *)
Definition edge_at (i : Z) : option (Line num) :=
  if (i <? 0)%Z then None else edges !! Z.to_nat i.

(** The [while (currentIndex !== endEdgeIndex)] loop; [%] is the
    truncating remainder. *)
Fixpoint walk (fuel : nat) (endEdgeIndex currentIndex : Z)
    (path : list (Point num)) : outcome (list (Point num)) :=
  if (currentIndex =? endEdgeIndex)%Z then Returns path
  else
    match fuel with
    | 0 => OutOfFuel
    | S fuel' =>
        let currentIndex := Z.rem (currentIndex + 1) (Z.of_nat (length edges)) in
        match edge_at currentIndex with
        | Some edge =>
            walk fuel' endEdgeIndex currentIndex
              (path ++ [mkPoint (x1 edge) (y1 edge)])
        | None => TypeError
        end
    end.

Definition findPathBetweenPoints (localStart localEnd : Point num)
    : outcome (list (Point num)) :=
  let '(mkSnap startEdgeIndex endEdgeIndex localStart localEnd) :=
    resnap localStart localEnd in
  if (startEdgeIndex =? -1)%Z || (endEdgeIndex =? -1)%Z then Returns []
  else
    let path := [localStart] in
    if (startEdgeIndex =? endEdgeIndex)%Z
    then Returns [localStart; localEnd]
    else
      match walk (length edges) endEdgeIndex startEdgeIndex path with
      | Returns path => Returns (path ++ [localEnd])
      | TypeError => TypeError
      | OutOfFuel => OutOfFuel
      end.

(** The variables captured by the handlers of the tool, and what the
    handlers use of the canvas: its object list and the two
    subscriptions. *)
Record Tool : Type := mkTool {
  isDrawing : bool;
  startPoint : option (Point num);
  previewPath : option ref;
  previewPoint : option ref;
  canvasObjects : list ref;
  onMouseMove : bool;
  onMouseDown : bool;
}.

(** [canvas.remove(obj)] when [obj] is set. *)
Definition canvas_remove (obj : option ref) (objects : list ref) : list ref :=
  match obj with
  | Some o => filter (λ o', o' ≠ o) objects
  | None => objects
  end.

Definition cleanup (tl : Tool) : Tool :=
  mkTool (isDrawing tl) (startPoint tl) (previewPath tl) (previewPoint tl)
    (canvas_remove (previewPoint tl)
       (canvas_remove (previewPath tl) (canvasObjects tl)))
    false false.

Definition handleMouseDown (pointer : Point num)
    (tl : Tool) (w : CustomPolygon.World num)
    : outcome (Tool * CustomPolygon.World num) :=
  let result := findClosestEdgePoint (mkPoint (x pointer) (y pointer)) in
  match result with
  | None => Returns (tl, w)
  | Some (result_point, _) =>
      if negb (isDrawing tl) then
        Returns (mkTool true (Some result_point) (previewPath tl)
                   (previewPoint tl) (canvasObjects tl)
                   (onMouseMove tl) (onMouseDown tl), w)
      else
        match startPoint tl with
        | None => TypeError
        | Some start =>
            match findPathBetweenPoints start result_point with
            | Returns localPathPoints =>
                if (length localPathPoints <? 2)%nat then
                  Returns (mkTool false None (previewPath tl)
                             (previewPoint tl) (canvasObjects tl)
                             (onMouseMove tl) (onMouseDown tl), w)
                else
                  match CustomPolygon.bind
                          (CustomPolygon.new_Path localPathPoints)
                          CustomPolygon.addDoor w with
                  | Returns (_, w') =>
                      let tl' := cleanup tl in
                      Returns (mkTool false None (previewPath tl')
                                 (previewPoint tl') (canvasObjects tl')
                                 (onMouseMove tl') (onMouseDown tl'), w')
                  | TypeError => TypeError
                  | OutOfFuel => OutOfFuel
                  end
            | TypeError => TypeError
            | OutOfFuel => OutOfFuel
            end
        end
  end.

End Door.

(** ** [door.ts]: the preview and the mouse handlers *)

Section DoorSession.
Context {num : Type} `{JSNumber num}.
Local Open Scope js_scope.

Variable edges : list (Line num).
Variables toLocalPoint toGlobalPoint : Point num → Point num.

(** The [fabric.Circle] of the preview point. *)
Record Circle : Type := mkCircle {
  circle_left : num;
  circle_top : num;
  circle_radius : num;
}.

(** One activation of the door tool: the variables and the canvas the
    handlers close over, the store of the polygon, and the preview
    circles. *)
Record Session : Type := mkSession {
  tool : Tool (num := num);
  polygon : CustomPolygon.World num;
  circleStore : gmap ref Circle;
}.

(** [canvas.add(obj)] *)
Definition canvas_add (obj : ref) (objects : list ref) : list ref :=
  objects ++ [obj].

Definition createPreviewPoint (point : Point num) (s : Session) : ref * Session :=
  let globalPoint := toGlobalPoint point in
  let w := polygon s in
  let circle := CustomPolygon.nextRef w in
  (circle,
   mkSession (tool s)
     (CustomPolygon.mkWorld (CustomPolygon.vertexStore w)
        (CustomPolygon.edgeStore w) (CustomPolygon.pathStore w) (S circle)
        (CustomPolygon.this w))
     (<[circle := mkCircle (x globalPoint - lit 5) (y globalPoint - lit 5)
                    (lit 5)]> (circleStore s))).

Definition updatePreviewLine (localStart localEnd : Point num) (s : Session)
    : outcome Session :=
  match findPathBetweenPoints edges localStart localEnd with
  | Returns localPathPoints =>
      let tl := tool s in
      let objects := canvas_remove (previewPath tl) (canvasObjects tl) in
      if (length localPathPoints <? 2)%nat then
        Returns (mkSession
                   (mkTool (isDrawing tl) (startPoint tl) None (previewPoint tl)
                      objects (onMouseMove tl) (onMouseDown tl))
                   (polygon s) (circleStore s))
      else
        let globalPoints := toGlobalPoint <$> localPathPoints in
        match CustomPolygon.new_Path globalPoints (polygon s) with
        | Returns (path, w) =>
            Returns (mkSession
                       (mkTool (isDrawing tl) (startPoint tl) (Some path)
                          (previewPoint tl) (canvas_add path objects)
                          (onMouseMove tl) (onMouseDown tl))
                       w (circleStore s))
        | TypeError => TypeError
        | OutOfFuel => OutOfFuel
        end
  | TypeError => TypeError
  | OutOfFuel => OutOfFuel
  end.

Definition handleMouseMove (pointer : Point num) (s : Session) : outcome Session :=
  let result := findClosestEdgePoint edges toLocalPoint
                  (mkPoint (x pointer) (y pointer)) in
  let tl := tool s in
  let objects := canvas_remove (previewPoint tl)
                   (canvas_remove (previewPath tl) (canvasObjects tl)) in
  match result with
  | Some (result_point, _) =>
      let '(circle, s) := createPreviewPoint result_point s in
      let s := mkSession
                 (mkTool (isDrawing tl) (startPoint tl) (previewPath tl)
                    (Some circle) (canvas_add circle objects)
                    (onMouseMove tl) (onMouseDown tl))
                 (polygon s) (circleStore s) in
      match isDrawing tl, startPoint tl with
      | true, Some start => updatePreviewLine start result_point s
      | _, _ => Returns s
      end
  | None =>
      Returns (mkSession
                 (mkTool (isDrawing tl) (startPoint tl) (previewPath tl)
                    (previewPoint tl) objects (onMouseMove tl) (onMouseDown tl))
                 (polygon s) (circleStore s))
  end.

(** The two events the tool subscribes to. *)
Inductive MouseEvent : Type :=
  | MouseMove (pointer : Point num)
  | MouseDown (pointer : Point num).

(** The canvas fires an event: a handler runs while it is subscribed. *)
Definition fire (ev : MouseEvent) (s : Session) : outcome Session :=
  match ev with
  | MouseMove pointer =>
      if onMouseMove (tool s) then handleMouseMove pointer s else Returns s
  | MouseDown pointer =>
      if onMouseDown (tool s) then
        match handleMouseDown edges toLocalPoint pointer (tool s) (polygon s) with
        | Returns (tl, w) => Returns (mkSession tl w (circleStore s))
        | TypeError => TypeError
        | OutOfFuel => OutOfFuel
        end
      else Returns s
  end.

Fixpoint fire_all (evs : list MouseEvent) (s : Session) : outcome Session :=
  match evs with
  | [] => Returns s
  | ev :: evs' =>
      match fire ev s with
      | Returns s' => fire_all evs' s'
      | TypeError => TypeError
      | OutOfFuel => OutOfFuel
      end
  end.

(** The state [action] leaves when it returns: nothing drawn, no
    preview, both handlers subscribed. *)
Definition action (canvasObjects : list ref) (w : CustomPolygon.World num)
    : Session :=
  mkSession (mkTool false None None None canvasObjects true true) w ∅.

End DoorSession.

(** ** Further number operations

    [===] on numbers and [Math.abs], which the line and shape tools use
    besides the operations above. *)

Class JSNumberOps (num : Type) := {
  num_eq : num → num → bool;
  Math_abs : num → num;
}.
Infix "===" := num_eq (at level 70) : js_scope.
Notation "a >? b" := (num_lt b a) (at level 70, only parsing) : js_scope.

#[export] Instance float_JSNumberOps : JSNumberOps float := {
  num_eq := PrimFloat.eqb;
  Math_abs := PrimFloat.abs;
}.

(** ** [fabric.Point]

    [distanceFrom] is a method of the library class: the Euclidean
    distance, computed as [Math.sqrt(dx * dx + dy * dy)]. *)

Section PointMethods.
Context {num : Type} `{JSNumber num}.
Local Open Scope js_scope.

(** [this.distanceFrom(that)] of [fabric.Point]. *)
Definition distanceFrom (this that : Point num) : num :=
  let dx := x this - x that in
  let dy := y this - y that in
  Math_sqrt (dx * dx + dy * dy).

End PointMethods.

(** ** The line tool: the hit test of [ConnectionLine] *)

Module ConnectionLine.
Section Methods.
Context {num : Type} `{JSNumber num} `{JSNumberOps num}.
Local Open Scope js_scope.

Definition hitboxPadding : num := lit 5.

Definition distanceFromPointToLine (point lineStart lineEnd : Point num) : num :=
  let lineLength := distanceFrom lineStart lineEnd in
  if lineLength === lit 0 then distanceFrom point lineStart
  else
    let t := ((x point - x lineStart) * (x lineEnd - x lineStart)
              + (y point - y lineStart) * (y lineEnd - y lineStart))
             / (lineLength * lineLength) in
    if t <? lit 0 then distanceFrom point lineStart
    else if t >? lit 1 then distanceFrom point lineEnd
    else
      distanceFrom point
        (mkPoint (x lineStart + t * (x lineEnd - x lineStart))
                 (y lineStart + t * (y lineEnd - y lineStart))).

Definition containsPoint (this : Line num) (point : Point num) : bool :=
  let lineStart := mkPoint (x1 this) (y1 this) in
  let lineEnd := mkPoint (x2 this) (y2 this) in
  let distance := distanceFromPointToLine point lineStart lineEnd in
  distance <=? hitboxPadding.

End Methods.
End ConnectionLine.

(** ** The canvas of the drawing tools *)

Module Canvas.
Section Canvas.
Context {num : Type}.

(** The options of a [fabric.Rect] or [fabric.Triangle] that the tools
    set and read. *)
Record Shape : Type := mkShape {
  left : num;
  top : num;
  width : num;
  height : num;
}.

(** The canvas: its object list, the active object, and the shapes the
    object references stand for. *)
Record t : Type := mk {
  objects : list ref;
  activeObject : option ref;
  shapes : gmap ref Shape;
  nextRef : ref;
}.

(** [new fabric.Rect({...})], [new fabric.Triangle({...})] *)
Definition new_Shape (s : Shape) (canvas : t) : ref * t :=
  (nextRef canvas,
   mk (objects canvas) (activeObject canvas)
      (<[nextRef canvas := s]> (shapes canvas)) (S (nextRef canvas))).

(** [canvas.add(obj)] *)
Definition add (obj : ref) (canvas : t) : t :=
  mk (objects canvas ++ [obj]) (activeObject canvas) (shapes canvas)
     (nextRef canvas).

(** [canvas.remove(obj)] *)
Definition remove (obj : ref) (canvas : t) : t :=
  mk (canvas_remove (Some obj) (objects canvas)) (activeObject canvas)
     (shapes canvas) (nextRef canvas).

(** [canvas.setActiveObject(obj)] *)
Definition setActiveObject (obj : ref) (canvas : t) : t :=
  mk (objects canvas) (Some obj) (shapes canvas) (nextRef canvas).

(** [obj.set({ width, height, left, top })] *)
Definition set (obj : ref) (s : Shape) (canvas : t) : t :=
  mk (objects canvas) (activeObject canvas) (<[obj := s]> (shapes canvas))
     (nextRef canvas).

End Canvas.
Arguments Shape : clear implicits.
Arguments t : clear implicits.
End Canvas.

(** ** The rectangle tool *)

Module drawRectangle.
Section Tool.
Context {num : Type} `{JSNumber num} `{JSNumberOps num}.
Local Open Scope js_scope.

(** The module variables [activeShape], [startPoint], [isDrawing], and
    the canvas the handlers are given. *)
Record State : Type := mkState {
  activeShape : option ref;
  startPoint : option (Point num);
  isDrawing : bool;
  canvas : Canvas.t num;
}.

Definition handleMouseDown (pointer : Point num) (st : State) : outcome State :=
  if isDrawing st then Returns st
  else
    let '(shape, canvas) :=
      Canvas.new_Shape (Canvas.mkShape (x pointer) (y pointer) (lit 0) (lit 0))
        (canvas st) in
    Returns (mkState (Some shape) (Some pointer) true (Canvas.add shape canvas)).

Definition handleMouseMove (pointer : Point num) (st : State) : outcome State :=
  match activeShape st, startPoint st, isDrawing st with
  | Some shape, Some start, true =>
      let width := Math_abs (x start - x pointer) in
      let height := Math_abs (y start - y pointer) in
      let left := Math_min (x start) (x pointer) in
      let top := Math_min (y start) (y pointer) in
      Returns (mkState (activeShape st) (startPoint st) (isDrawing st)
                 (Canvas.set shape (Canvas.mkShape left top width height)
                    (canvas st)))
  | _, _, _ => Returns st
  end.

Definition handleMouseUp (pointer : Point num) (st : State) : outcome State :=
  if negb (isDrawing st) then Returns st
  else
    match activeShape st with
    | Some shape =>
        match Canvas.shapes (canvas st) !! shape with
        | Some s =>
            let canvas :=
              if (Canvas.width s >? lit 0) && (Canvas.height s >? lit 0)
              then Canvas.setActiveObject shape (canvas st)
              else Canvas.remove shape (canvas st) in
            Returns (mkState None None false canvas)
        | None => TypeError
        end
    | None => Returns (mkState None None false (canvas st))
    end.

Definition cleanUp (st : State) : outcome State :=
  Returns (mkState None None false (canvas st)).

End Tool.
Arguments State : clear implicits.
End drawRectangle.

(** ** The triangle tool *)

Module drawTriangle.
Section Tool.
Context {num : Type} `{JSNumber num} `{JSNumberOps num}.
Local Open Scope js_scope.

(** The module variables [activeShape], [startPoint], and the canvas. *)
Record State : Type := mkState {
  activeShape : option ref;
  startPoint : option (Point num);
  canvas : Canvas.t num;
}.

Definition handleMouseDown (pointer : Point num) (st : State) : outcome State :=
  let '(shape, canvas) :=
    Canvas.new_Shape (Canvas.mkShape (x pointer) (y pointer) (lit 0) (lit 0))
      (canvas st) in
  Returns (mkState (Some shape) (Some pointer) (Canvas.add shape canvas)).

Definition handleMouseMove (pointer : Point num) (st : State) : outcome State :=
  match activeShape st, startPoint st with
  | Some shape, Some start =>
      let width := Math_abs (x start - x pointer) in
      let height := Math_abs (y start - y pointer) in
      let left := Math_min (x start) (x pointer) in
      let top := Math_min (y start) (y pointer) in
      Returns (mkState (activeShape st) (startPoint st)
                 (Canvas.set shape (Canvas.mkShape left top width height)
                    (canvas st)))
  | _, _ => Returns st
  end.

Definition handleMouseUp (pointer : Point num) (st : State) : outcome State :=
  match activeShape st with
  | Some shape =>
      Returns (mkState None None (Canvas.setActiveObject shape (canvas st)))
  | None => Returns st
  end.

Definition cleanUp (st : State) : outcome State :=
  Returns (mkState None None (canvas st)).

End Tool.
Arguments State : clear implicits.
End drawTriangle.

(** ** [utils.ts] *)

Module utils.
Section Init.
Context {num : Type}.
(** What the handlers of a tool can reach: the canvas and the tool's
    own module variables. *)
Context {T : Type}.

(** A [DrawingTool]: every handler is optional. *)
Record DrawingTool : Type := mkDrawingTool {
  cursor : string;
  init : option (T → outcome T);
  handleMouseDown : option (Point num → T → outcome T);
  handleMouseMove : option (Point num → T → outcome T);
  handleMouseUp : option (Point num → T → outcome T);
  cleanUp : option (T → outcome T);
}.

(** [tool.handler?.(canvas, ...)] *)
Definition call_optional (h : option (T → outcome T)) (st : T) : outcome T :=
  match h with
  | Some f => f st
  | None => Returns st
  end.

(** The [DrawingToolContext] of [createDrawingContext], the local
    [isDragging], the state the tool reaches, and the calls made to the
    two callbacks [addObject] and [setCurrentTool]. *)
Record Handlers : Type := mkHandlers {
  isDrawing : bool;
  startPoint : option (Point num);
  currentShape : option ref;
  isDragging : bool;
  toolState : T;
  addObject_calls : list ref;
  setCurrentTool_calls : list (option string);
}.

(** What a handler reads of the event [options]: whether [options.e]
    is set, whether [canvas.findTarget(options.e)] finds an object, and
    [canvas.getPointer(options.e)]. *)
Record Options : Type := mkOptions {
  e : bool;
  target : bool;
  pointer : Point num;
}.

Inductive CanvasEvent : Type :=
  | mouse_down (options : Options)
  | mouse_move (options : Options)
  | mouse_up (options : Options).

Variable tool : DrawingTool.

(** [createDrawingContext(canvas)] and [let isDragging = false], after
    [tool.init?.(canvas)]. *)
Definition initializeDrawingTool (st : T) : outcome Handlers :=
  match call_optional (init tool) st with
  | Returns st => Returns (mkHandlers false None None false st [] [])
  | TypeError => TypeError
  | OutOfFuel => OutOfFuel
  end.

Definition with_toolState (h : Handlers) (r : outcome T) : outcome Handlers :=
  match r with
  | Returns st =>
      Returns (mkHandlers (isDrawing h) (startPoint h) (currentShape h)
                 (isDragging h) st (addObject_calls h) (setCurrentTool_calls h))
  | TypeError => TypeError
  | OutOfFuel => OutOfFuel
  end.

Definition on_mouse_down (options : Options) (h : Handlers) : outcome Handlers :=
  if negb (e options) then Returns h
  else if target options then
    Returns (mkHandlers (isDrawing h) (startPoint h) (currentShape h) true
               (toolState h) (addObject_calls h) (setCurrentTool_calls h))
  else
    let h := mkHandlers true (Some (pointer options)) (currentShape h)
               (isDragging h) (toolState h) (addObject_calls h)
               (setCurrentTool_calls h) in
    with_toolState h
      (call_optional ((λ f, f (pointer options)) <$> handleMouseDown tool)
         (toolState h)).

Definition on_mouse_move (options : Options) (h : Handlers) : outcome Handlers :=
  if negb (isDrawing h) || negb (e options) || isDragging h then Returns h
  else
    with_toolState h
      (call_optional ((λ f, f (pointer options)) <$> handleMouseMove tool)
         (toolState h)).

Definition on_mouse_up (options : Options) (h : Handlers) : outcome Handlers :=
  if isDragging h then
    Returns (mkHandlers (isDrawing h) (startPoint h) (currentShape h) false
               (toolState h) (addObject_calls h) (setCurrentTool_calls h))
  else if negb (isDrawing h) then Returns h
  else
    let h := mkHandlers false (startPoint h) (currentShape h) (isDragging h)
               (toolState h) (addObject_calls h) (setCurrentTool_calls h) in
    match
      (match startPoint h, e options with
       | Some _, true =>
           with_toolState h
             (call_optional ((λ f, f (pointer options)) <$> handleMouseUp tool)
                (toolState h))
       | _, _ => Returns h
       end)
    with
    | Returns h =>
        let h :=
          match currentShape h with
          | Some shape =>
              mkHandlers (isDrawing h) (startPoint h) None (isDragging h)
                (toolState h) (addObject_calls h ++ [shape])
                (setCurrentTool_calls h)
          | None => h
          end in
        Returns (mkHandlers (isDrawing h) (startPoint h) (currentShape h)
                   (isDragging h) (toolState h) (addObject_calls h)
                   (setCurrentTool_calls h ++ [None]))
    | TypeError => TypeError
    | OutOfFuel => OutOfFuel
    end.

(** The canvas fires an event at the subscribed handler. *)
Definition fire (ev : CanvasEvent) (h : Handlers) : outcome Handlers :=
  match ev with
  | mouse_down options => on_mouse_down options h
  | mouse_move options => on_mouse_move options h
  | mouse_up options => on_mouse_up options h
  end.

Fixpoint fire_all (evs : list CanvasEvent) (h : Handlers) : outcome Handlers :=
  match evs with
  | [] => Returns h
  | ev :: evs' =>
      match fire ev h with
      | Returns h' => fire_all evs' h'
      | TypeError => TypeError
      | OutOfFuel => OutOfFuel
      end
  end.

End Init.
Arguments DrawingTool : clear implicits.
Arguments Handlers : clear implicits.
Arguments Options : clear implicits.
Arguments CanvasEvent : clear implicits.
End utils.

(** The two tools as [DrawingTool] records. *)
Definition drawRectangle_tool {num : Type} `{JSNumber num} `{JSNumberOps num}
    : utils.DrawingTool num (drawRectangle.State num) :=
  utils.mkDrawingTool "crosshair" None
    (Some drawRectangle.handleMouseDown) (Some drawRectangle.handleMouseMove)
    (Some drawRectangle.handleMouseUp) (Some drawRectangle.cleanUp).

Definition drawTriangle_tool {num : Type} `{JSNumber num} `{JSNumberOps num}
    : utils.DrawingTool num (drawTriangle.State num) :=
  utils.mkDrawingTool "crosshair" None
    (Some drawTriangle.handleMouseDown) (Some drawTriangle.handleMouseMove)
    (Some drawTriangle.handleMouseUp) (Some drawTriangle.cleanUp).




(* ===================================================================== *)
(** * Part II.  Vocabulary of the statements                              *)
(* ===================================================================== *)

(** ** Routing and snapping *)

Section Vocabulary.
Context {num : Type} `{JSNumber num}.
Local Open Scope js_scope.

(** The routing loop's acceptance test of point [p] against [edge], and
    the position [p] is overwritten with when the test passes. *)
Definition accepts (p : Point num) (edge : Line num) : bool :=
  accepted5 (getPointToLineDistance p (mkPoint (x1 edge) (y1 edge))
               (mkPoint (x2 edge) (y2 edge))).

Definition snapped (p : Point num) (edge : Line num) : Point num :=
  point (getPointToLineDistance p (mkPoint (x1 edge) (y1 edge))
           (mkPoint (x2 edge) (y2 edge))).

(** One endpoint's share of the loop body. *)
Definition snap1 (st : Z * Point num) (edge : Line num) (i : nat) : Z * Point num :=
  if accepts st.2 edge then (Z.of_nat i, snapped st.2 edge) else st.

(** The starting vertex [(x1, y1)] of the edge at index [i]. *)
Definition vertex_at (edges : list (Line num)) (i : Z) : option (Point num) :=
  (λ edge, mkPoint (x1 edge) (y1 edge)) <$> edge_at edges i.

(** The result of [getPointToLineDistance] for an edge, and the
    acceptance test of the snapping loop. *)
Definition toEdge (p : Point num) (edge : Line num) : PointToLine :=
  getPointToLineDistance p (mkPoint (x1 edge) (y1 edge))
    (mkPoint (x2 edge) (y2 edge)).

Definition accepted10 (p : Point num) (edge : Line num) : bool :=
  (distance (toEdge p edge) <? THRESHOLD)
  && (t (toEdge p edge) >=? lit 0) && (t (toEdge p edge) <=? lit 1).

(** What the locals hold after the loop has visited the edges [l]
    : nothing if no edge was accepted,
    otherwise an accepted edge that no accepted edge beats and that
    beats every accepted edge before it. *)
Definition closest_of (p : Point num) (l : list (Line num))
    (st : Closest) : Prop :=
  (st = mkClosest None Infinity None
   ∧ ∀ edge, edge ∈ l → accepted10 p edge = false)
  ∨ (∃ (k : nat) edge,
       l !! k = Some edge
       ∧ st = mkClosest (Some (point (toEdge p edge)))
                (distance (toEdge p edge)) (Some k)
       ∧ accepted10 p edge = true
       ∧ (∀ j edge', l !! j = Some edge' → accepted10 p edge' = true →
            (distance (toEdge p edge') <? distance (toEdge p edge)) = false)
       ∧ (∀ j edge', (j < k)%nat → l !! j = Some edge' → accepted10 p edge' = true →
            (distance (toEdge p edge) <? distance (toEdge p edge')) = true)).

End Vocabulary.

(** ** Cycles of a partial successor map *)

Section RingVocabulary.
Variables nx pv : nat → option nat.

(** [k] applications of [nx]. *)
Fixpoint iter_nx (k : nat) (e : nat) : option nat :=
  match k with
  | 0 => Some e
  | S k' => nx e ≫= iter_nx k'
  end.

(** One closed cycle through the elements of [es], as the claim words
    it. *)
Definition cycle_on (es : list nat) : Prop :=
  NoDup es
  ∧ ∀ e, e ∈ es →
      (∃ e', nx e = Some e' ∧ e' ∈ es ∧ pv e' = Some e)
      ∧ iter_nx (length es) e = Some e
      ∧ ∀ k, 0 < k < length es → iter_nx k e ≠ Some e.

(** [a → l_0 → l_1 → ...], each link with its back link. *)
Fixpoint path (a : nat) (l : list nat) : Prop :=
  match l with
  | [] => True
  | b :: l' => nx a = Some b ∧ pv b = Some a ∧ path b l'
  end.

(** The elements of [a :: l], in this order, closed by a link from the
    last one back to [a]. *)
Definition ring (a : nat) (l : list nat) : Prop :=
  NoDup (a :: l) ∧ path a (l ++ [a]).

(** [[nx a; nx (nx a); ...]], [k] elements. *)
Fixpoint orbit (k : nat) (a : nat) : list nat :=
  match k with
  | 0 => []
  | S k' => match nx a with
            | Some b => b :: orbit k' b
            | None => []
            end
  end.

End RingVocabulary.

(** ** The edge cycle of a polygon *)

Section CycleVocabulary.
Context {num : Type} `{JSNumber num}.
Import CustomPolygon.

(** [e.nextEdge] and [e.prevEdge], read through the store. *)
Definition nextEdge_of (w : World num) (e : ref) : option ref :=
  edgeStore w !! e ≫= PolygonEdge.nextEdge.

Definition prevEdge_of (w : World num) (e : ref) : option ref :=
  edgeStore w !! e ≫= PolygonEdge.prevEdge.

(** The edges of the polygon form one closed cycle: no edge is listed
    twice, [edge.nextEdge] is an edge of the polygon whose [prevEdge] is
    [edge], and following [nextEdge] from any edge comes back to it after
    exactly as many steps as there are edges, not earlier. *)
Definition closed_cycle (w : World num) : Prop :=
  let es := edges (this w) in
  NoDup es
  ∧ ∀ e, e ∈ es →
      (∃ e', nextEdge_of w e = Some e' ∧ e' ∈ es ∧ prevEdge_of w e' = Some e)
      ∧ follow_nextEdge w (length es) e = Some e
      ∧ ∀ k, 0 < k < length es → follow_nextEdge w k e ≠ Some e.

(** References never dangle: every allocated object is below the
    allocation counter, and the end points of an edge are allocated. *)
Definition allocated (w : World num) : Prop :=
  (∀ r, is_Some (vertexStore w !! r) → r < nextRef w)
  ∧ (∀ r, is_Some (edgeStore w !! r) → r < nextRef w)
  ∧ (∀ r o, edgeStore w !! r = Some o →
       is_Some (vertexStore w !! PolygonEdge.source o)
       ∧ is_Some (vertexStore w !! PolygonEdge.target o)).

(** The links of the store after the call, spelled out. *)
Definition relinked (es0 : gmap ref (PolygonEdge.t num)) (edge : ref)
    (o : PolygonEdge.t num) (newVertex newEdge1 newEdge2 prev : ref)
    : gmap ref (PolygonEdge.t num) :=
  let es := <[newEdge1 := PolygonEdge.mk (PolygonEdge.source o) newVertex None None
                            (PolygonEdge.stroke o) (PolygonEdge.strokeWidth o)]> es0 in
  let es := <[newEdge2 := PolygonEdge.mk newVertex (PolygonEdge.target o) None None
                            (PolygonEdge.stroke o) (PolygonEdge.strokeWidth o)]> es in
  let es := alter (set_nextEdge (Some newEdge2)) newEdge1 es in
  let es := alter (set_prevEdge (Some newEdge1)) newEdge2 es in
  let es := alter (set_nextEdge (Some newEdge1)) prev es in
  alter (set_prevEdge (Some prev)) newEdge1 es.

End CycleVocabulary.

(** ** binary64 *)

(** Zero of either sign, or [NaN]. *)
Definition zero_or_nan (a : float) : Prop :=
  match Prim2SF a with
  | S754_zero _ | S754_nan => True
  | _ => False
  end.

(** ** Example polygons in binary64 *)

Definition pt (a b : Z) : Point float := mkPoint (float_lit a) (float_lit b).

Definition ln (a b c d : Z) : Line float :=
  mkLine (float_lit a) (float_lit b) (float_lit c) (float_lit d).

(** The square with corners [(0,0)], [(s,0)], [(s,s)], [(0,s)]; edge 0
    is the bottom side, edge 2 the top side. *)
Definition square (s : Z) : list (Line float) :=
  [ln 0 0 s 0; ln s 0 s s; ln s s 0 s; ln 0 s 0 0].


(** The point-to-segment claim as the specification words it: the
    parameter lies in [[0, 1]], and on a zero-length segment it is [0]
    and the distance is the distance to the single point. *)
Definition clamped_with_point_fallback (P A B : Point float) : Prop :=
  let r := getPointToLineDistance P A B in
  (lit 0 <=? t r)%js = true
  ∧ (t r <=? lit 1)%js = true
  ∧ ((x A =? x B)%float = true → (y A =? y B)%float = true →
     (t r =? 0)%float = true
     ∧ distance r
       = Math_sqrt (Math_pow2 (x P - x A)%js + Math_pow2 (y P - y A)%js)%js).

(** The snapping claim as the specification words it: none when every
    edge is farther than [THRESHOLD], and otherwise a pair at distance
    below [THRESHOLD]. *)
Definition none_iff_all_farther (edges : list (Line float))
    (toLocalPoint : Point float → Point float) (globalPointer : Point float)
    : Prop :=
  let p := toLocalPoint globalPointer in
  if forallb (λ edge, THRESHOLD <? distance (toEdge p edge))%js edges
  then findClosestEdgePoint edges toLocalPoint globalPointer = None
  else ∃ pt k edge,
         findClosestEdgePoint edges toLocalPoint globalPointer = Some (pt, k)
         ∧ edges !! k = Some edge
         ∧ (distance (toEdge p edge) <? THRESHOLD)%js = true.

(** A square polygon as a store: vertices 0..3, edges 4..7 linked in
    sequence order, one door 8. *)
Definition square_world : CustomPolygon.World float :=
  CustomPolygon.mkWorld
    (list_to_map
       [(0, PolygonVertex.mk (float_lit (-6)) (float_lit (-6)) [7; 4]);
        (1, PolygonVertex.mk (float_lit 94) (float_lit (-6)) [4; 5]);
        (2, PolygonVertex.mk (float_lit 94) (float_lit 94) [5; 6]);
        (3, PolygonVertex.mk (float_lit (-6)) (float_lit 94) [6; 7])])
    (list_to_map
       [(4, PolygonEdge.mk 0 1 (Some 7) (Some 5) "black" (float_lit 2));
        (5, PolygonEdge.mk 1 2 (Some 4) (Some 6) "black" (float_lit 2));
        (6, PolygonEdge.mk 2 3 (Some 5) (Some 7) "black" (float_lit 2));
        (7, PolygonEdge.mk 3 0 (Some 6) (Some 4) "black" (float_lit 2))])
    (list_to_map [(8, [pt 20 0; pt 60 0])])
    9
    (CustomPolygon.mk [0; 1; 2; 3] [4; 5; 6; 7] [8]
       [OfVertex 0; OfVertex 1; OfVertex 2; OfVertex 3;
        OfEdge 4; OfEdge 5; OfEdge 6; OfEdge 7; OfPath 8]).


(** The second click of a gesture whose recorded start point is no
    longer near any edge. *)
Definition awaiting_second_point : Tool (num := float) :=
  mkTool true (Some (pt 1000 1000)) None None [] true true.


(** ** Polygon topology *)

Section PolygonVocabulary.
Context {num : Type} `{JSNumber num}.
Import CustomPolygon.

(** [v.edges = v.edges.map(e => e === edge ? n : e)] *)
Definition replace_edge (edge n : ref) (v : PolygonVertex.t num)
    : PolygonVertex.t num :=
  set_edges ((λ e', if decide (e' = edge) then n else e')
               <$> PolygonVertex.edges v) v.

(** The vertices of the store after the call, spelled out. *)
Definition reattached (vs0 : gmap ref (PolygonVertex.t num)) (edge : ref)
    (o : PolygonEdge.t num) (newVertex newEdge1 newEdge2 : ref)
    (left top : num) : gmap ref (PolygonVertex.t num) :=
  let vs := <[newVertex := PolygonVertex.mk left top []]> vs0 in
  let vs := alter (set_edges [newEdge1; newEdge2]) newVertex vs in
  let vs := alter (replace_edge edge newEdge1) (PolygonEdge.source o) vs in
  alter (replace_edge edge newEdge2) (PolygonEdge.target o) vs.

(** The child list is the vertices, then the edges, then the doors. *)
Definition objects_synced (p : t) : Prop :=
  _objects p = (OfVertex <$> vertices p) ++ (OfEdge <$> edges p)
                 ++ (OfPath <$> doors p).




End PolygonVocabulary.

(** ** The door tool between two events *)

Section SessionVocabulary.
Context {num : Type} `{JSNumber num}.

(** What holds of a session between two events, for a tool started on
    the canvas objects [base] and the store [w0]. *)
Definition session_inv (base : list ref) (w0 : CustomPolygon.World num)
    (s : Session) : Prop :=
  let tl := tool s in
  let w := polygon s in
  let n0 := CustomPolygon.nextRef w0 in
  (isDrawing tl = true → is_Some (startPoint tl))
  ∧ n0 ≤ CustomPolygon.nextRef w
  ∧ (∀ p, previewPath tl = Some p → n0 ≤ p < CustomPolygon.nextRef w)
  ∧ (∀ c, previewPoint tl = Some c → n0 ≤ c < CustomPolygon.nextRef w)
  ∧ (Forall (λ o, o < n0) base →
     canvas_remove (previewPoint tl)
       (canvas_remove (previewPath tl) (canvasObjects tl)) = base)
  ∧ CustomPolygon.vertexStore w = CustomPolygon.vertexStore w0
  ∧ CustomPolygon.edgeStore w = CustomPolygon.edgeStore w0
  ∧ CustomPolygon.vertices (CustomPolygon.this w)
    = CustomPolygon.vertices (CustomPolygon.this w0)
  ∧ CustomPolygon.edges (CustomPolygon.this w)
    = CustomPolygon.edges (CustomPolygon.this w0)
  ∧ ((onMouseMove tl = true ∧ onMouseDown tl = true
      ∧ CustomPolygon.doors (CustomPolygon.this w)
        = CustomPolygon.doors (CustomPolygon.this w0))
     ∨ (onMouseMove tl = false ∧ onMouseDown tl = false
        ∧ ∃ door path,
            CustomPolygon.doors (CustomPolygon.this w)
            = CustomPolygon.doors (CustomPolygon.this w0) ++ [door]
            ∧ n0 ≤ door
            ∧ CustomPolygon.pathStore w !! door = Some path
            ∧ 2 ≤ length path)).

End SessionVocabulary.

(** The square of [square_world] with its last edge no longer listed,
    as after a removal that did not unlink it. *)
Definition stale_world : CustomPolygon.World float :=
  CustomPolygon.mkWorld
    (CustomPolygon.vertexStore square_world)
    (CustomPolygon.edgeStore square_world)
    (CustomPolygon.pathStore square_world)
    (CustomPolygon.nextRef square_world)
    (CustomPolygon.mk [0; 1; 2; 3] [4; 5; 6] [8]
       [OfVertex 0; OfVertex 1; OfVertex 2; OfVertex 3;
        OfEdge 4; OfEdge 5; OfEdge 6; OfPath 8]).



(* ===================================================================== *)
(** * Part III.  Properties                                               *)
(* ===================================================================== *)

(** ** Arrays *)

Lemma forEach_from_app {A St : Type} (f : St → A → nat → St) l1 l2 i s :
  Array.forEach_from f i (l1 ++ l2) s
  = Array.forEach_from f (i + length l1) l2 (Array.forEach_from f i l1 s).
Proof.
  revert i s; induction l1 as [|a l1 IH]; intros i s; simpl.
  - by rewrite Nat.add_0_r.
  - rewrite IH. f_equal. lia.
Qed.

Lemma forEach_snoc {A St : Type} (f : St → A → nat → St) l a s :
  Array.forEach f (l ++ [a]) s = f (Array.forEach f l s) a (length l).
Proof. unfold Array.forEach. by rewrite forEach_from_app. Qed.

(** ** Routing: the re-snap loop *)

Section Resnap.
Context {num : Type} `{JSNumber num}.
Variable edges : list (Line num).

Lemma findPathBetweenPoints_body_split si ei s e edge i :
  findPathBetweenPoints_body (mkSnap si ei s e) edge i
  = mkSnap (snap1 (si, s) edge i).1 (snap1 (ei, e) edge i).1
           (snap1 (si, s) edge i).2 (snap1 (ei, e) edge i).2.
Proof.
  unfold findPathBetweenPoints_body, snap1, accepts, snapped; cbn [fst snd
    startEdgeIndex endEdgeIndex localStart localEnd].
  destruct (accepted5 (getPointToLineDistance s _ _));
    destruct (accepted5 (getPointToLineDistance e _ _)); reflexivity.
Qed.

Lemma resnap_body_split l : ∀ i si ei s e,
  Array.forEach_from findPathBetweenPoints_body i l (mkSnap si ei s e)
  = mkSnap (Array.forEach_from snap1 i l (si, s)).1
           (Array.forEach_from snap1 i l (ei, e)).1
           (Array.forEach_from snap1 i l (si, s)).2
           (Array.forEach_from snap1 i l (ei, e)).2.
Proof.
  induction l as [|edge l IH]; intros i si ei s e; [done|].
  cbn [Array.forEach_from]. rewrite findPathBetweenPoints_body_split.
  destruct (snap1 (si, s) edge i) as [si' s'], (snap1 (ei, e) edge i) as [ei' e'].
  apply IH.
Qed.

(** The two endpoints are re-snapped independently of each other. *)
Lemma resnap_split (s e : Point num) :
  resnap edges s e
  = mkSnap (Array.forEach snap1 edges (-1, s)%Z).1
           (Array.forEach snap1 edges (-1, e)%Z).1
           (Array.forEach snap1 edges (-1, s)%Z).2
           (Array.forEach snap1 edges (-1, e)%Z).2.
Proof. apply resnap_body_split. Qed.

Lemma snap1_true idx p edge i :
  accepts p edge = true → snap1 (idx, p) edge i = (Z.of_nat i, snapped p edge).
Proof. unfold snap1; cbn [fst snd]. by intros ->. Qed.

Lemma snap1_false idx p edge i :
  accepts p edge = false → snap1 (idx, p) edge i = (idx, p).
Proof. unfold snap1; cbn [fst snd]. by intros ->. Qed.

(** No edge accepts the point: index and point are left as they were. *)
Lemma snap1_none l : ∀ i idx p,
  (∀ edge, edge ∈ l → accepts p edge = false) →
  Array.forEach_from snap1 i l (idx, p) = (idx, p).
Proof.
  induction l as [|edge l IH]; intros i idx p Hno; [done|].
  cbn [Array.forEach_from]. rewrite snap1_false by (apply Hno; set_solver).
  apply IH. intros; apply Hno; set_solver.
Qed.

(** The index after the loop is the initial one, or the position of an
    edge that accepted the point as it then was, and the point is its
    projection on that edge. *)
Lemma snap1_index l : ∀ i idx p,
  let r := Array.forEach_from snap1 i l (idx, p) in
  (r = (idx, p) ∧ ∀ edge, edge ∈ l → accepts p edge = false)
  ∨ (∃ k edge p', l !! k = Some edge ∧ r.1 = Z.of_nat (i + k)
       ∧ accepts p' edge = true ∧ r.2 = snapped p' edge).
Proof.
  induction l as [|edge l IH]; intros i idx p; cbn [Array.forEach_from].
  - left. split; [done|]. intros ? Hin. by apply elem_of_nil in Hin.
  - destruct (accepts p edge) eqn:Hacc.
    + right. rewrite snap1_true by done.
      destruct (IH (S i) (Z.of_nat i) (snapped p edge))
        as [[Hr _]|(k&e'&p'&Hk&Hi&Ha&Hs)].
      * exists 0, edge, p. rewrite Hr, Nat.add_0_r. done.
      * exists (S k), e', p'. rewrite Hi.
        split_and!; [done|f_equal; lia|done|done].
    + rewrite snap1_false by done.
      destruct (IH (S i) idx p) as [[Hr Hno]|(k&e'&p'&Hk&Hi&Ha&Hs)].
      * left. split; [done|]. intros e' [->|Hin]%elem_of_cons; auto.
      * right. exists (S k), e', p'. rewrite Hi.
        split_and!; [done|f_equal; lia|done|done].
Qed.

End Resnap.

(** ** Routing: the forward walk *)

Section Walk.
Context {num : Type} `{JSNumber num}.
Variable edges : list (Line num).

Let n : Z := Z.of_nat (length edges).

Lemma mod_wrap (c d : Z) :
  (0 ≤ c < n → 0 ≤ d ≤ n →
   (c + d) `mod` n = if (c + d <? n) then c + d else c + d - n)%Z.
Proof.
  intros Hc Hd. destruct (Z.ltb_spec (c + d) n).
  - apply Z.mod_small; lia.
  - symmetry. apply (Z.mod_unique_pos _ _ 1); lia.
Qed.

Lemma mod_gap (c e : Z) :
  (0 ≤ c < n → 0 ≤ e < n →
   (e - c) `mod` n = if (c <=? e) then e - c else e - c + n)%Z.
Proof.
  intros Hc He. destruct (Z.leb_spec c e).
  - apply Z.mod_small; lia.
  - symmetry. apply (Z.mod_unique_pos _ _ (-1)); lia.
Qed.

Lemma edge_at_Some (i : Z) :
  (0 ≤ i < n)%Z → ∃ edge, edge_at edges i = Some edge.
Proof.
  intros Hi. unfold edge_at. destruct (Z.ltb_spec i 0); [lia|].
  apply lookup_lt_is_Some_2. subst n. lia.
Qed.

(** With the two indices in range the loop ends within [fuel] steps as
    soon as [fuel] covers the forward gap, and appends the starting
    vertices of the edges it enters. *)
Lemma walk_forward (e : Z) : ∀ fuel c path,
  (0 ≤ c < n)%Z → (0 ≤ e < n)%Z → ((e - c) `mod` n ≤ Z.of_nat fuel)%Z →
  ∃ vs, walk edges fuel e c path = Returns (path ++ vs)
      ∧ Z.of_nat (length vs) = ((e - c) `mod` n)%Z
      ∧ ∀ m : nat, m < length vs →
          vs !! m = vertex_at edges ((c + 1 + Z.of_nat m) `mod` n)%Z.
Proof.
  induction fuel as [|fuel IH]; intros c path Hc He Hgap;
    rewrite mod_gap in * by done; cbn [walk].
  - destruct (Z.eqb_spec c e) as [->|Hne].
    + exists []. rewrite app_nil_r, Z.leb_refl. split_and!; [done|simpl; lia|].
      simpl; intros; lia.
    + destruct (Z.leb_spec c e); lia.
  - destruct (Z.eqb_spec c e) as [->|Hne].
    + exists []. rewrite app_nil_r, Z.leb_refl. split_and!; [done|simpl; lia|].
      simpl; intros; lia.
    + fold n. rewrite Z.rem_mod_nonneg by lia.
      pose proof (mod_wrap c 1 Hc ltac:(lia)) as Hw. rewrite Hw.
      set (c' := if (c + 1 <? n)%Z then (c + 1)%Z else (c + 1 - n)%Z) in *.
      assert (0 ≤ c' < n)%Z as Hc'
        by (subst c'; destruct (Z.ltb_spec (c + 1) n); lia).
      destruct (edge_at_Some c' Hc') as [edge Hedge]. rewrite Hedge.
      destruct (IH c' (path ++ [mkPoint (x1 edge) (y1 edge)]) Hc' He)
        as (vs & Hrun & Hlen & Hvs).
      { rewrite mod_gap by done. subst c'.
        destruct (Z.ltb_spec (c + 1) n), (Z.leb_spec c e);
          repeat case_match; lia. }
      exists (mkPoint (x1 edge) (y1 edge) :: vs).
      rewrite Hrun, <- app_assoc. split_and!; [done| |].
      * cbn [length]. rewrite Nat2Z.inj_succ, Hlen, mod_gap by done. subst c'.
        destruct (Z.ltb_spec (c + 1) n), (Z.leb_spec c e);
          repeat case_match; lia.
      * intros [|m] Hm; cbn [length] in Hm.
        -- simpl. unfold vertex_at. rewrite Z.add_0_r, Hw.
           fold c'. by rewrite Hedge.
        -- cbn [lookup list_lookup]. rewrite Hvs by lia. f_equal.
           subst c'. rewrite <- Hw, <- Z.add_assoc, Zplus_mod_idemp_l.
           f_equal. lia.
Qed.

End Walk.

(** ** Routing: [findPathBetweenPoints] *)

Section Routing.
Context {num : Type} `{JSNumber num}.
Variable edges : list (Line num).

(** What the loop leaves in [startEdgeIndex]/[localStart] (and likewise
    for the end point): [-1] and the point itself when no edge accepts
    it, otherwise a valid index and the projection on that edge. *)
Lemma resnap_endpoint (p : Point num) :
  let r := Array.forEach (snap1 (num := num)) edges ((-1)%Z, p) in
  (r = ((-1)%Z, p) ∧ ∀ edge, edge ∈ edges → accepts p edge = false)
  ∨ (∃ (k : nat) edge p', edges !! k = Some edge ∧ r.1 = Z.of_nat k
       ∧ accepts p' edge = true ∧ r.2 = snapped p' edge).
Proof. apply (snap1_index edges 0). Qed.

Lemma resnap_index_range (p : Point num) :
  let r := Array.forEach (snap1 (num := num)) edges ((-1)%Z, p) in
  (r.1 ≠ -1 → 0 ≤ r.1 < Z.of_nat (length edges))%Z.
Proof.
  intros r Hne. destruct (resnap_endpoint p) as [[Hr _]|(k&edge&p'&Hk&Hi&_)].
  - fold r in Hr. rewrite Hr in Hne. done.
  - fold r in Hi. apply lookup_lt_Some in Hk. lia.
Qed.

Lemma resnap_index_minus1 (p : Point num) :
  let r := Array.forEach (snap1 (num := num)) edges ((-1)%Z, p) in
  r.1 = (-1)%Z ↔ ∀ edge, edge ∈ edges → accepts p edge = false.
Proof.
  intros r. split.
  - intros Hr. destruct (resnap_endpoint p) as [[_ Hno]|(k&edge&p'&_&Hi&_)];
      [done|]. fold r in Hi. lia.
  - intros Hno. subst r. unfold Array.forEach. by rewrite snap1_none.
Qed.

(** The routine always returns: the loop is never short of fuel and
    never indexes outside the edge sequence. *)
Lemma findPathBetweenPoints_returns (s e : Point num) :
  ∃ path, findPathBetweenPoints edges s e = Returns path.
Proof.
  unfold findPathBetweenPoints. rewrite resnap_split.
  pose proof (resnap_index_range s) as Hs.
  pose proof (resnap_index_range e) as He. cbv zeta in Hs, He.
  destruct (Array.forEach snap1 edges (_, s)) as [i s'],
           (Array.forEach snap1 edges (_, e)) as [j e']; cbn [fst snd] in *.
  destruct (Z.eqb_spec i (-1)); [by eexists|].
  destruct (Z.eqb_spec j (-1)); [by eexists|]. cbn [orb].
  destruct (Z.eqb_spec i j); [by eexists|].
  destruct (walk_forward edges j (length edges) i [s']) as (vs & -> & _);
    [auto|auto| |by eexists].
  pose proof (Z.mod_pos_bound (j - i) (Z.of_nat (length edges))). lia.
Qed.

End Routing.

(** When the routing loop leaves the two indices equal (and not [-1]),
    the path is the two positions the loop left, each the projection on
    that edge of a point the edge accepted.  The loop may have moved an
    endpoint on the way, so these need not be the projections of the
    given endpoints. *)
Lemma findPathBetweenPoints_equal_indices
    {num : Type} `{JSNumber num} (edges : list (Line num)) (s e : Point num) :
  let st := resnap edges s e in
  startEdgeIndex st = endEdgeIndex st →
  startEdgeIndex st ≠ (-1)%Z →
  findPathBetweenPoints edges s e = Returns [localStart st; localEnd st]
  ∧ (∃ (k : nat) edge ps pe,
       edges !! k = Some edge ∧ startEdgeIndex st = Z.of_nat k
       ∧ accepts ps edge = true ∧ localStart st = snapped ps edge
       ∧ accepts pe edge = true ∧ localEnd st = snapped pe edge)
  ∧ (localStart st = localEnd st →
     findPathBetweenPoints edges s e = Returns [localStart st; localStart st]).
Proof.
  intros st Heq Hne.
  assert (findPathBetweenPoints edges s e = Returns [localStart st; localEnd st])
    as Hrun.
  { unfold findPathBetweenPoints. fold st. destruct st as [i j s' e'].
    cbn [startEdgeIndex endEdgeIndex localStart localEnd] in *. subst j.
    destruct (Z.eqb_spec i (-1)); [done|]. cbn [orb]. by rewrite Z.eqb_refl. }
  split_and!; [done| |by intros Hsame; rewrite Hrun, Hsame].
  clear Hrun. subst st. rewrite resnap_split in *.
  cbn [startEdgeIndex endEdgeIndex localStart localEnd] in *.
  destruct (resnap_endpoint edges s) as [[Hr _]|(k&edge&ps&Hk&Hi&Has&Hs)];
    [by rewrite Hr in Hne|].
  destruct (resnap_endpoint edges e) as [[Hr _]|(k'&edge'&pe&Hk'&Hi'&Hae&He)];
    [rewrite Hr in Heq; cbn [fst] in Heq; lia|].
  assert (k' = k) as -> by lia. assert (edge' = edge) as -> by congruence.
  by exists k, edge, ps, pe.
Qed.

(** C4: with distinct snapped indices [i ≠ j] the path is
    [[start, v_1, ..., v_k, end]] with [k = (j - i) mod edgeCount], where
    [v_m] is the starting vertex of edge [(i + m) mod edgeCount]: the
    walk goes forward whatever the backward distance is.  On four edges,
    from edge 0 to edge 2, that is a path of four points. *)
Theorem findPathBetweenPoints_walks_forward
    {num : Type} `{JSNumber num} (edges : list (Line num)) (s e : Point num) :
  let st := resnap edges s e in
  let i := startEdgeIndex st in
  let j := endEdgeIndex st in
  let n := Z.of_nat (length edges) in
  i ≠ (-1)%Z → j ≠ (-1)%Z → i ≠ j →
  ∃ vs, findPathBetweenPoints edges s e
        = Returns (localStart st :: vs ++ [localEnd st])
      ∧ Z.of_nat (length vs) = ((j - i) `mod` n)%Z
      ∧ (∀ m : nat, m < length vs →
           vs !! m = vertex_at edges ((i + 1 + Z.of_nat m) `mod` n)%Z)
      ∧ (n = 4%Z → i = 0%Z → j = 2%Z →
           length (localStart st :: vs ++ [localEnd st]) = 4).
Proof.
  intros st i j n Hi Hj Hij.
  pose proof (resnap_index_range edges s) as Hs.
  pose proof (resnap_index_range edges e) as He. cbv zeta in Hs, He.
  unfold findPathBetweenPoints. subst i j st. rewrite resnap_split in *.
  cbn [startEdgeIndex endEdgeIndex localStart localEnd] in *.
  destruct (Array.forEach snap1 edges (_, s)) as [i s'],
           (Array.forEach snap1 edges (_, e)) as [j e']; cbn [fst snd] in *.
  destruct (Z.eqb_spec i (-1)); [done|].
  destruct (Z.eqb_spec j (-1)); [done|]. cbn [orb].
  destruct (Z.eqb_spec i j); [done|].
  destruct (walk_forward edges j (length edges) i [s']) as (vs & -> & Hlen & Hvs);
    [auto|auto| |].
  { pose proof (Z.mod_pos_bound (j - i) (Z.of_nat (length edges))). lia. }
  exists vs. split_and!; [done|done|done|].
  intros Hn -> ->. fold n in Hlen. rewrite Hn in Hlen. change (2 - 0)%Z with 2%Z in Hlen.
  cbn [length]. rewrite length_app. cbn [length].
  change (2 `mod` 4)%Z with 2%Z in Hlen. lia.
Qed.

(** C6: the result is the empty sequence exactly when one of the two
    given endpoints is accepted by no edge (distance below 5 with
    [0 <= t <= 1]); and the routine always returns. *)
Theorem findPathBetweenPoints_empty_iff
    {num : Type} `{JSNumber num} (edges : list (Line num)) (s e : Point num) :
  (∃ path, findPathBetweenPoints edges s e = Returns path)
  ∧ (findPathBetweenPoints edges s e = Returns []
     ↔ (∀ edge, edge ∈ edges → accepts s edge = false)
       ∨ (∀ edge, edge ∈ edges → accepts e edge = false)).
Proof.
  split; [apply findPathBetweenPoints_returns|].
  rewrite <- !resnap_index_minus1.
  pose proof (findPathBetweenPoints_returns edges s e) as [path Hret].
  revert Hret. unfold findPathBetweenPoints. rewrite resnap_split.
  destruct (Array.forEach snap1 edges (_, s)) as [i s'],
           (Array.forEach snap1 edges (_, e)) as [j e']; cbn [fst snd].
  destruct (Z.eqb_spec i (-1)); [by intuition|].
  destruct (Z.eqb_spec j (-1)); [by intuition|]. cbn [orb].
  destruct (Z.eqb_spec i j); [by intuition|].
  destruct (walk edges _ _ _ _) as [p| |]; [|done|done].
  intros _. split; [|by intros [?|?]].
  intros [=Hnil]. by apply app_nil in Hnil as [_ ?].
Qed.

(** ** [indexOf] and [splice] *)

Section ArrayFacts.
Context {A : Type} `{EqDecision A}.

Lemma indexOf_from_spec (a : A) (l : list A) : ∀ i : Z,
  (Array.indexOf_from i l a = (-1)%Z ∧ a ∉ l)
  ∨ (∃ k : nat, Array.indexOf_from i l a = (i + Z.of_nat k)%Z
                ∧ l !! k = Some a ∧ a ∉ take k l).
Proof.
  induction l as [|b l IH]; intros i; cbn [Array.indexOf_from].
  - left. split; [done|]. apply not_elem_of_nil.
  - destruct (decide (b = a)) as [->|Hne].
    + right. exists 0. rewrite Z.add_0_r. split_and!; [done|done|].
      apply not_elem_of_nil.
    + destruct (IH (i + 1)%Z) as [(Hi&Hn)|(k&Hi&Hk&Hn)].
      * left. split; [done|]. rewrite elem_of_cons. naive_solver.
      * right. exists (S k). split_and!; [rewrite Hi; lia|done|].
        cbn [take]. rewrite elem_of_cons. naive_solver.
Qed.

(** [indexOf] is [-1] exactly on absent elements, and otherwise the
    first position of the element. *)
Lemma indexOf_spec (a : A) (l : list A) :
  (Array.indexOf l a = (-1)%Z ∧ a ∉ l)
  ∨ (∃ k : nat, Array.indexOf l a = Z.of_nat k
                ∧ l !! k = Some a ∧ a ∉ take k l).
Proof.
  unfold Array.indexOf.
  destruct (indexOf_from_spec a l 0) as [?|(k&?&?&?)];
    [by left|right; by exists k].
Qed.

Lemma splice_delete1 (l : list A) (k : nat) items :
  k < length l →
  Array.splice l (Z.of_nat k) 1 items = take k l ++ items ++ drop (S k) l.
Proof.
  intros Hk. unfold Array.splice.
  destruct (Z.ltb_spec (Z.of_nat k) 0); [lia|].
  rewrite Z.min_l by lia. rewrite (Z.max_l 1 0) by lia.
  rewrite Z.min_l by lia. rewrite Nat2Z.id.
  by replace (Z.to_nat (Z.of_nat k + 1)) with (S k) by lia.
Qed.

Lemma splice_insert (l : list A) (start : Z) items :
  length (Array.splice l start 0 items) = length l + length items.
Proof.
  unfold Array.splice. rewrite (Z.max_l 0 0) by lia.
  set (len := Z.of_nat (length l)).
  set (a := if (start <? 0)%Z then Z.max (len + start) 0 else Z.min start len).
  assert (0 ≤ a ≤ len)%Z as Ha by (subst a; case_match; lia).
  rewrite Z.min_l by lia. rewrite Z.add_0_r.
  rewrite !length_app, length_take, length_drop. subst len. lia.
Qed.

End ArrayFacts.

(** ** [removeDoor] *)

(** C8: [removeDoor(door)] on a door of the polygon removes its first
    occurrence from [doors] and rebuilds the child list from the
    vertices, edges and remaining doors, so that a door listed once is
    afterwards in neither list; on a door that is not in [doors] it
    changes nothing. *)
Theorem removeDoor_spec {num : Type} `{JSNumber num}
    (w : CustomPolygon.World num) (door : ref) :
  let p := CustomPolygon.this w in
  (door ∈ CustomPolygon.doors p →
   ∃ (k : nat) w',
     CustomPolygon.removeDoor door w = Returns (tt, w')
     ∧ CustomPolygon.doors p !! k = Some door
     ∧ (door ∉ take k (CustomPolygon.doors p))
     ∧ CustomPolygon.doors (CustomPolygon.this w')
       = take k (CustomPolygon.doors p) ++ drop (S k) (CustomPolygon.doors p)
     ∧ S (length (CustomPolygon.doors (CustomPolygon.this w')))
       = length (CustomPolygon.doors p)
     ∧ CustomPolygon.vertices (CustomPolygon.this w') = CustomPolygon.vertices p
     ∧ CustomPolygon.edges (CustomPolygon.this w') = CustomPolygon.edges p
     ∧ CustomPolygon._objects (CustomPolygon.this w')
       = (OfVertex <$> CustomPolygon.vertices p)
           ++ (OfEdge <$> CustomPolygon.edges p)
           ++ (OfPath <$> CustomPolygon.doors (CustomPolygon.this w'))
     ∧ (NoDup (CustomPolygon.doors p) →
        (door ∉ CustomPolygon.doors (CustomPolygon.this w'))
        ∧ (OfPath door ∉ CustomPolygon._objects (CustomPolygon.this w'))))
  ∧ (door ∉ CustomPolygon.doors p →
     CustomPolygon.removeDoor door w = Returns (tt, w)).
Proof.
  intros p. subst p. destruct w as [vs es ps nr [vl el dl ol]].
  unfold CustomPolygon.removeDoor, CustomPolygon.bind, CustomPolygon.readThis,
    CustomPolygon.writeThis, CustomPolygon.updateObjects, CustomPolygon.ret.
  simpl.
  destruct (indexOf_spec door dl) as [[-> Hno]|(k&->&Hk&Hfirst)].
  - split; [done|]. intros _. done.
  - split; [|intros Hno; by apply list_elem_of_lookup_2 in Hk].
    intros _. pose proof (lookup_lt_Some _ _ _ Hk) as Hlt.
    destruct (Z.gtb_spec (Z.of_nat k) (-1)); [|lia]. simpl.
    rewrite splice_delete1 by done. cbn [app].
    exists k.
    destruct (Array.indexOf ol (OfPath door) >? -1)%Z;
      (eexists; split; [reflexivity|]; simpl; split_and!; try done).
    all: try (rewrite length_app, length_take, length_drop; lia).
    all: intros Hnd.
    all: assert (door ∉ take k dl ++ drop (S k) dl) as Hgone.
    1, 3: (rewrite <- (take_drop_middle dl k door Hk) in Hnd;
           apply NoDup_app in Hnd as (_ & Hdisj & Hnd);
           apply NoDup_cons in Hnd as [Hnot _];
           rewrite elem_of_app; by intros [?|?]).
    all: split; [done|].
    all: rewrite !elem_of_app, !list_elem_of_fmap; naive_solver.
Qed.

(** ** The two-click gesture *)

(** A returned path is empty or has at least two points. *)
Lemma findPathBetweenPoints_length {num : Type} `{JSNumber num}
    (edges : list (Line num)) (s e : Point num) path :
  findPathBetweenPoints edges s e = Returns path →
  path = [] ∨ 2 ≤ length path.
Proof.
  unfold findPathBetweenPoints. destruct (resnap edges s e) as [i j s' e'].
  destruct ((i =? -1)%Z || (j =? -1)%Z); [intros [= <-]; by left|].
  destruct (i =? j)%Z; [intros [= <-]; right; simpl; lia|].
  destruct (walk edges _ _ _ _) as [p| |] eqn:Hwalk; [|done|done].
  intros [= <-]. right. rewrite length_app. cbn [length].
  assert (1 ≤ length p); [|lia].
  revert Hwalk. generalize (length edges) at 1. intros fuel.
  assert (1 ≤ length [s']) as Hone by (simpl; lia). revert Hone.
  generalize [s'] as path. revert i.
  induction fuel as [|fuel IH]; intros c path Hone; cbn [walk];
    destruct (c =? j)%Z; try done; try (by intros [= <-]).
  destruct (edge_at edges _); [|done].
  apply IH. rewrite length_app. lia.
Qed.

(** C9: second click of the gesture, valid snap, routing returns fewer
    than two points: the handler returns with [isDrawing = false] and
    [startPoint = null], and the store is the one it was called in, so
    no path object was created and the polygon's [doors] and [_objects]
    are unchanged. *)
Theorem handleMouseDown_routing_failure {num : Type} `{JSNumber num}
    (edges : list (Line num)) (toLocalPoint : Point num → Point num)
    (pointer : Point num) (tl : Tool) (w : CustomPolygon.World num)
    (result_point : Point num) (edge : nat) (start : Point num)
    (localPathPoints : list (Point num)) :
  isDrawing tl = true →
  startPoint tl = Some start →
  findClosestEdgePoint edges toLocalPoint (mkPoint (x pointer) (y pointer))
    = Some (result_point, edge) →
  findPathBetweenPoints edges start result_point = Returns localPathPoints →
  length localPathPoints < 2 →
  ∃ tl' w',
    handleMouseDown edges toLocalPoint pointer tl w = Returns (tl', w')
    ∧ isDrawing tl' = false ∧ startPoint tl' = None
    ∧ w' = w
    ∧ CustomPolygon.doors (CustomPolygon.this w')
      = CustomPolygon.doors (CustomPolygon.this w)
    ∧ CustomPolygon._objects (CustomPolygon.this w')
      = CustomPolygon._objects (CustomPolygon.this w)
    ∧ CustomPolygon.pathStore w' = CustomPolygon.pathStore w
    ∧ localPathPoints = [].
Proof.
  intros Hdrawing Hstart Hsnap Hroute Hshort.
  unfold handleMouseDown. rewrite Hsnap, Hdrawing, Hstart, Hroute. cbn [negb].
  destruct (Nat.ltb_spec (length localPathPoints) 2); [|lia].
  eexists _, w. split_and!; try done.
  destruct (findPathBetweenPoints_length _ _ _ _ Hroute); [done|lia].
Qed.

(** ** Cycles of a partial successor map *)

Section Ring.
Variables nx pv : nat → option nat.

Lemma iter_nx_add (j k : nat) (e : nat) :
  iter_nx nx (j + k) e = iter_nx nx j e ≫= iter_nx nx k.
Proof.
  revert e; induction j as [|j IH]; intros e; simpl; [done|].
  destruct (nx e) as [e'|]; simpl; [apply IH|done].
Qed.

Lemma last_cons_default (l : list nat) (a b : nat) :
  List.last (b :: l) a = List.last l b.
Proof.
  revert a b; induction l as [|c l IH]; intros a b; [done|].
  change (List.last (b :: c :: l) a) with (List.last (c :: l) a).
  rewrite IH. symmetry. apply IH.
Qed.

Lemma lookup_last_default (l : list nat) : ∀ (d : nat) (m : nat),
  length l = S m → l !! m = Some (List.last l d).
Proof.
  induction l as [|c l IH]; intros d m Hlen; [done|].
  rewrite last_cons_default. destruct m as [|m].
  - destruct l; [done|simpl in Hlen; lia].
  - change ((c :: l) !! S m) with (l !! m). apply IH. simpl in Hlen; lia.
Qed.

Lemma path_app (a : nat) (l1 l2 : list nat) :
  path nx pv a (l1 ++ l2) ↔ path nx pv a l1 ∧ path nx pv (List.last l1 a) l2.
Proof.
  revert a; induction l1 as [|b l1 IH]; intros a; [simpl; tauto|].
  rewrite last_cons_default. cbn [app path]. rewrite IH. tauto.
Qed.

(** Along a path nx pv the [k]-th successor of [a] is the [k]-th element. *)
Lemma path_iter (a : nat) (l : list nat) (k : nat) :
  path nx pv a l → k ≤ length l → iter_nx nx k a = (a :: l) !! k.
Proof.
  revert a k; induction l as [|b l IH]; intros a [|k] Hp Hk; simpl in *;
    try done; try lia.
  destruct Hp as (-> & _ & Hp). simpl. apply IH; [done|lia].
Qed.

Lemma ring_rotate (a b : nat) (l : list nat) :
  ring nx pv a (b :: l) → ring nx pv b (l ++ [a]).
Proof.
  intros [Hnd Hp]. split.
  - eapply NoDup_Permutation_proper; [|exact Hnd].
    rewrite (Permutation_app_comm l [a]). simpl. apply Permutation_swap.
  - simpl in Hp. destruct Hp as (Hab & Hba & Hp).
    apply path_app in Hp as [Hl Ha].
    rewrite <- app_assoc. apply path_app. split; [done|].
    simpl in *. tauto.
Qed.

(** Any element of a ring nx pv can be taken as its first. *)
Lemma ring_from (e : nat) : ∀ (l1 : list nat) (a : nat) (l2 : list nat),
  ring nx pv a (l1 ++ e :: l2) → ring nx pv e (l2 ++ a :: l1).
Proof.
  induction l1 as [|b l1 IH]; intros a l2 Hr.
  - by apply ring_rotate in Hr.
  - cbn [app] in Hr. apply ring_rotate in Hr. rewrite <- app_assoc in Hr.
    apply IH in Hr. by rewrite <- app_assoc in Hr.
Qed.

Lemma ring_at (a : nat) (l : list nat) (e : nat) :
  ring nx pv a l → e ∈ a :: l → ∃ l', ring nx pv e l' ∧ e :: l' ≡ₚ a :: l.
Proof.
  intros Hr Hin. apply list_elem_of_split in Hin as (l1 & l2 & Heq).
  destruct l1 as [|a' l1]; simplify_eq/=; [by eexists|].
  exists (l2 ++ a' :: l1). split; [by apply ring_from|].
  rewrite (Permutation_app_comm l2). cbn [app].
  rewrite <- Permutation_middle. apply Permutation_swap.
Qed.

(** The first element of a ring nx pv has the three properties of the
    claim. *)
Lemma ring_head (e : nat) (l : list nat) :
  ring nx pv e l →
  (∃ e', nx e = Some e' ∧ e' ∈ e :: l ∧ pv e' = Some e)
  ∧ iter_nx nx (length (e :: l)) e = Some e
  ∧ ∀ k, 0 < k < length (e :: l) → iter_nx nx k e ≠ Some e.
Proof.
  intros [Hnd Hp]. split_and!.
  - destruct l as [|b l]; simpl in Hp.
    + exists e. split_and!; [tauto|set_solver|tauto].
    + exists b. split_and!; [tauto|set_solver|tauto].
  - rewrite (path_iter e (l ++ [e])); [|done|rewrite length_app; simpl; lia].
    change (e :: l ++ [e]) with ((e :: l) ++ [e]).
    by rewrite list_lookup_middle.
  - intros k Hk. cbn [length] in Hk.
    rewrite (path_iter e (l ++ [e])); [|done|rewrite length_app; simpl; lia].
    destruct k as [|k]; [lia|].
    change ((e :: l ++ [e]) !! S k) with ((l ++ [e]) !! k).
    rewrite lookup_app_l by lia. intros Hl.
    apply NoDup_cons in Hnd as [Hnot _]. apply Hnot.
    by eapply list_elem_of_lookup_2.
Qed.

Lemma ring_cycle_on (a : nat) (l es : list nat) :
  ring nx pv a l → a :: l ≡ₚ es → cycle_on nx pv es.
Proof.
  intros Hr Hperm. split; [rewrite <- Hperm; apply Hr|].
  intros e He. rewrite <- Hperm in He.
  destruct (ring_at a l e Hr He) as (l' & Hr' & Hperm').
  pose proof (ring_head e l' Hr') as (Hnext & Hback & Hexact).
  assert (length (e :: l') = length es) as Hlen by by rewrite Hperm', Hperm.
  rewrite Hlen in *. split_and!; [|done|done].
  destruct Hnext as (e' & ? & ? & ?). exists e'.
  split_and!; [done| |done]. by rewrite <- Hperm, <- Hperm'.
Qed.

Section FromCycle.
Variable es : list nat.
Hypothesis Hcyc : cycle_on nx pv es.

Lemma cycle_on_nx (e : nat) :
  e ∈ es → ∃ e', nx e = Some e' ∧ e' ∈ es ∧ pv e' = Some e.
Proof using Hcyc. intros He. by destruct Hcyc as [_ Hc]; destruct (Hc e He) as [? _]. Qed.

Lemma iter_nx_closed (k : nat) : ∀ e,
  e ∈ es → ∃ e', iter_nx nx k e = Some e' ∧ e' ∈ es.
Proof using Hcyc.
  induction k as [|k IH]; intros e He; simpl; [by exists e|].
  destruct (cycle_on_nx e He) as (e' & -> & He' & _). simpl. by apply IH.
Qed.

Lemma iter_nx_inj (k : nat) : ∀ e1 e2 r,
  e1 ∈ es → e2 ∈ es →
  iter_nx nx k e1 = Some r → iter_nx nx k e2 = Some r → e1 = e2.
Proof using Hcyc.
  induction k as [|k IH]; intros e1 e2 r H1 H2; simpl; [congruence|].
  destruct (cycle_on_nx e1 H1) as (e1' & -> & H1' & Hb1).
  destruct (cycle_on_nx e2 H2) as (e2' & -> & H2' & Hb2). simpl.
  intros Hi1 Hi2. assert (e1' = e2') by by eapply IH. congruence.
Qed.

Lemma orbit_spec (k : nat) : ∀ e,
  e ∈ es →
  length (orbit nx k e) = k
  ∧ path nx pv e (orbit nx k e)
  ∧ ∀ i, i < k → orbit nx k e !! i = iter_nx nx (S i) e.
Proof using Hcyc.
  induction k as [|k IH]; intros e He; cbn [orbit].
  - split_and!; [done|done|intros; lia].
  - destruct (cycle_on_nx e He) as (e' & Hnx & He' & Hb).
    cbn [iter_nx]. rewrite Hnx. cbn [mbind option_bind].
    destruct (IH e' He') as (Hlen & Hp & Hi).
    split_and!; [simpl; lia|by simpl|].
    intros [|i] Hlt; [done|].
    change ((e' :: orbit nx k e') !! S i) with (orbit nx k e' !! i).
    by rewrite Hi by lia.
Qed.

(** The cycle through [e], listed from [e] on, is a ring, and it is the
    whole of [es]. *)
Lemma cycle_on_ring (e : nat) :
  e ∈ es → ∃ l, ring nx pv e l ∧ e :: l ≡ₚ es.
Proof using Hcyc.
  intros He. destruct Hcyc as [Hnd Hc].
  destruct (Hc e He) as (_ & Hback & Hexact).
  assert (0 < length es) as Hpos
    by (destruct es; [by apply elem_of_nil in He|simpl; lia]).
  set (n := length es) in *.
  destruct (orbit_spec (n - 1) e He) as (Hlen & Hp & Hi).
  exists (orbit nx (n - 1) e).
  assert (∀ x, x ∈ orbit nx (n - 1) e → x ∈ es) as Hsub.
  { intros x (i & Hx)%list_elem_of_lookup.
    pose proof (lookup_lt_Some _ _ _ Hx) as Hlt. rewrite Hi in Hx by lia.
    destruct (iter_nx_closed (S i) e He) as (x' & Hx' & ?). congruence. }
  assert (NoDup (e :: orbit nx (n - 1) e)) as Hnd'.
  { apply NoDup_cons. split.
    - intros (i & Hx)%list_elem_of_lookup.
      pose proof (lookup_lt_Some _ _ _ Hx) as Hlt. rewrite Hi in Hx by lia.
      apply (Hexact (S i)); [lia|done].
    - apply NoDup_alt. intros i j x Hx Hy.
      pose proof (lookup_lt_Some _ _ _ Hx) as Hlti.
      pose proof (lookup_lt_Some _ _ _ Hy) as Hltj.
      rewrite Hi in Hx, Hy by lia.
      assert (∀ i j, i < j → j < n - 1 →
               iter_nx nx (S i) e = Some x → iter_nx nx (S j) e = Some x → False)
        as Hlt.
      { clear i j Hx Hy Hlti Hltj. intros i j Hij Hj Hx Hy.
        replace (S j) with ((j - i) + S i) in Hy by lia.
        rewrite iter_nx_add in Hy.
        destruct (iter_nx_closed (j - i) e He) as (y & Hy' & Hyin).
        rewrite Hy' in Hy. cbn [mbind option_bind] in Hy.
        assert (y = e) as -> by by eapply iter_nx_inj.
        apply (Hexact (j - i)); [lia|done]. }
      rewrite Hlen in Hlti, Hltj.
      destruct (Nat.lt_total i j) as [?|[?|?]]; [exfalso|done|exfalso].
      + by apply (Hlt i j).
      + by apply (Hlt j i). }
  split; [split; [done|]|].
  - apply path_app. split; [done|].
    assert (iter_nx nx (n - 1) e = Some (List.last (orbit nx (n - 1) e) e)) as Hlast.
    { destruct (n - 1) as [|m] eqn:Hm;
        [by destruct (orbit nx 0 e) eqn:Horb; simpl in Hlen|].
      rewrite <- Hi by lia. by apply lookup_last_default. }
    replace n with ((n - 1) + 1) in Hback by lia.
    rewrite iter_nx_add, Hlast in Hback. simpl in Hback.
    assert (List.last (orbit nx (n - 1) e) e ∈ es) as Hin.
    { destruct (iter_nx_closed (n - 1) e He) as (y & Hy & ?). congruence. }
    destruct (cycle_on_nx _ Hin) as (e' & Hnx & _ & Hb).
    rewrite Hnx in Hback. simpl in Hback. simplify_eq. by simpl.
  - apply submseteq_length_Permutation.
    + apply NoDup_submseteq; [done|]. intros x [->|?]%elem_of_cons; auto.
    + simpl. rewrite Hlen. lia.
Qed.

End FromCycle.

End Ring.

(** ** Splitting one element of a ring in two *)

Lemma last_elem_of (l : list nat) (d : nat) : List.last l d ∈ d :: l.
Proof.
  revert d; induction l as [|c l IH]; intros d; [set_solver|].
  rewrite last_cons_default. specialize (IH c). set_solver.
Qed.

Section RingSplit.
Variables nx pv nx' pv' : nat → option nat.

(** A path whose links are kept, except that its last element now
    points to [n1] instead of [e]. *)
Lemma path_relink (e n1 : nat) : ∀ (l : list nat) (a : nat),
  NoDup (a :: l) →
  path nx pv a (l ++ [e]) →
  (∀ r, r ∈ a :: l → r ≠ List.last l a → nx' r = nx r) →
  (∀ r, r ∈ l → pv' r = pv r) →
  nx' (List.last l a) = Some n1 →
  pv' n1 = Some (List.last l a) →
  path nx' pv' a (l ++ [n1]).
Proof.
  induction l as [|b l IH]; intros a Hnd Hp Hnx Hpv Hlast Hn1.
  - simpl in *. done.
  - rewrite last_cons_default in *. cbn [app path] in *.
    destruct Hp as (Hab & Hba & Hp).
    apply NoDup_cons in Hnd as [Ha Hnd].
    split_and!.
    + rewrite Hnx; [done|set_solver|].
      intros Heq. apply Ha. rewrite Heq. apply last_elem_of.
    + rewrite Hpv; [done|set_solver].
    + apply IH; try done.
      * intros r Hr Hne. apply Hnx; [set_solver|done].
      * intros r Hr. apply Hpv. set_solver.
Qed.

(** The ring [e, l] with [e] replaced by the two new elements
    [n1, n2]. *)
Lemma ring_split (e n1 n2 : nat) (l : list nat) :
  ring nx pv e l →
  n1 ∉ e :: l → n2 ∉ e :: l → n1 ≠ n2 →
  nx' n1 = Some n2 → pv' n2 = Some n1 →
  nx' n2 = Some (List.hd n1 l) → pv' (List.hd n1 l) = Some n2 →
  nx' (List.last l n2) = Some n1 → pv' n1 = Some (List.last l n2) →
  (∀ r, r ∈ l → r ≠ List.last l e → nx' r = nx r) →
  (∀ r, r ∈ l → r ≠ List.hd e l → pv' r = pv r) →
  ring nx' pv' n1 (n2 :: l).
Proof.
  intros [Hnd Hp] Hn1 Hn2 Hne H12 H21 Hhd Hhd' Hlast Hlast' Hnx Hpv.
  apply NoDup_cons in Hnd as [He Hnd].
  split.
  - apply NoDup_cons. split; [set_solver|]. apply NoDup_cons. set_solver.
  - cbn [app path]. split_and!; [done|done|].
    destruct l as [|b l]; [simpl in *; done|].
    cbn [List.hd] in *. rewrite last_cons_default in *.
    cbn [app path] in Hp |- *. destruct Hp as (_ & _ & Hp).
    split_and!; [done|done|].
    apply NoDup_cons in Hnd as [Hb Hnd'].
    apply (path_relink e n1 l b); try done.
    + by apply NoDup_cons.
    + intros r Hr. apply Hpv; [set_solver|]. by intros ->.
Qed.

End RingSplit.

(** ** The edge cycle *)

Section Cycle.
Context {num : Type} `{JSNumber num}.
Import CustomPolygon.

Lemma addVertexOnEdge_run (w : World num) (edge : ref) (point : Point num)
    (o : PolygonEdge.t num) (prev next : ref) :
  allocated w →
  edgeStore w !! edge = Some o →
  PolygonEdge.prevEdge o = Some prev →
  PolygonEdge.nextEdge o = Some next →
  let newVertex := nextRef w in
  let newEdge1 := S (nextRef w) in
  let newEdge2 := S (S (nextRef w)) in
  let es6 := relinked (edgeStore w) edge o newVertex newEdge1 newEdge2 prev in
  let next' := if decide (prev = edge) then newEdge1 else next in
  ∃ w', addVertexOnEdge edge point w = Returns (tt, w')
      ∧ edgeStore w'
        = alter (set_nextEdge (Some next')) newEdge2
            (alter (set_prevEdge (Some newEdge2)) next' es6)
      ∧ vertices (this w')
        = Array.splice (vertices (this w))
            (Array.indexOf (vertices (this w)) (PolygonEdge.target o)) 0
            [newVertex]
      ∧ edges (this w')
        = Array.splice (edges (this w)) (Array.indexOf (edges (this w)) edge) 1
            [newEdge1; newEdge2]
      ∧ doors (this w') = doors (this w)
      ∧ nextRef w' = S (S (S (nextRef w)))
      ∧ ∀ r, is_Some (vertexStore w' !! r)
             ↔ r = newVertex ∨ is_Some (vertexStore w !! r).
Proof.
  intros (Hv & He & Hends) Ho Hprev Hnext.
  destruct (Hends _ _ Ho) as [[vsrc Hsrc] [vtgt Htgt]].
  pose proof (He edge ltac:(by eexists)) as Hlt.
  pose proof (Hv (PolygonEdge.source o) ltac:(by eexists)) as Hlts.
  pose proof (Hv (PolygonEdge.target o) ltac:(by eexists)) as Hltt.
  intros newVertex newEdge1 newEdge2 es6 next'.
  destruct w as [VS ES PS nr poly]; cbn [vertexStore edgeStore nextRef this] in *.
  unfold addVertexOnEdge, bind, new_PolygonVertex, new_PolygonEdge, readEdge,
    readVertex, readThis, writeVertex, writeEdge, writeThis, updateObjects, ret.
  cbn [vertexStore edgeStore nextRef this pathStore].
  rewrite Ho. cbn [vertexStore edgeStore nextRef this pathStore].
  rewrite lookup_alter_ne, lookup_insert_ne, Hsrc by lia.
  cbn [vertexStore edgeStore nextRef this pathStore].
  match goal with
  | |- context [match ?m !! PolygonEdge.target o with _ => _ end] =>
      assert (is_Some (m !! PolygonEdge.target o)) as [a2 ->]
  end.
  { rewrite lookup_alter_is_Some, lookup_alter_is_Some, lookup_insert_is_Some'.
    right. by eexists. }
  cbn [vertexStore edgeStore nextRef this pathStore].
  rewrite (lookup_alter_ne _ _ (S (S nr)) edge), (lookup_alter_ne _ _ (S nr) edge),
    (lookup_insert_ne _ (S (S nr)) edge), (lookup_insert_ne _ (S nr) edge), Ho
    by lia.
  rewrite Hprev. cbn [vertexStore edgeStore nextRef this pathStore].
  subst newVertex newEdge1 newEdge2.
  change (alter (set_prevEdge (Some prev)) (S nr) _)
    with (relinked ES edge o nr (S nr) (S (S nr)) prev).
  fold es6.
  assert (es6 !! edge ≫= PolygonEdge.nextEdge = Some next') as Hread.
  { subst es6 next'. unfold relinked.
    rewrite (lookup_alter_ne _ _ (S nr)) by lia.
    destruct (decide (prev = edge)) as [->|Hpe];
      [rewrite lookup_alter_eq|rewrite lookup_alter_ne by done];
      rewrite (lookup_alter_ne _ _ (S (S nr)) edge), (lookup_alter_ne _ _ (S nr) edge),
        (lookup_insert_ne _ (S (S nr)) edge), (lookup_insert_ne _ (S nr) edge), Ho
        by lia; simpl; [done|by rewrite Hnext]. }
  destruct (es6 !! edge) as [o6|] eqn:Ho6; [|done]. cbn [mbind option_bind] in Hread.
  rewrite Hread. cbn [vertexStore edgeStore nextRef this pathStore].
  eexists. split; [reflexivity|].
  cbn [vertexStore edgeStore nextRef this pathStore vertices edges doors].
  split_and!; try done.
  intros r. rewrite !lookup_alter_is_Some, lookup_insert_is_Some'.
  split; intros [?|?]; auto.
Qed.

Lemma follow_nextEdge_iter (w : World num) (k : nat) : ∀ e,
  follow_nextEdge w k e = iter_nx (nextEdge_of w) k e.
Proof.
  induction k as [|k IH]; intros e; [reflexivity|]. cbn [follow_nextEdge iter_nx].
  change (nextEdge_of w e) with (edgeStore w !! e ≫= PolygonEdge.nextEdge).
  destruct (edgeStore w !! e) as [o|]; [|reflexivity].
  cbn [mbind option_bind].
  destruct (PolygonEdge.nextEdge o); [|reflexivity].
  cbn [mbind option_bind]. apply IH.
Qed.

Lemma closed_cycle_cycle_on (w : World num) :
  closed_cycle w
  ↔ cycle_on (nextEdge_of w) (prevEdge_of w) (edges (this w)).
Proof.
  unfold closed_cycle, cycle_on.
  by setoid_rewrite follow_nextEdge_iter.
Qed.

Section Relinked.
Variables (ES : gmap nat (PolygonEdge.t num)) (nr edge prev next : nat).
Variable o : PolygonEdge.t num.
Hypothesis Hbelow : ∀ r, is_Some (ES !! r) → r < nr.
Hypothesis Ho : ES !! edge = Some o.
Hypothesis Hprev : PolygonEdge.prevEdge o = Some prev.
Hypothesis Hnext : PolygonEdge.nextEdge o = Some next.
Hypothesis Hprev_alloc : is_Some (ES !! prev).
Hypothesis Hnext_alloc : is_Some (ES !! next).

Let next' : nat := if decide (prev = edge) then S nr else next.

Let ES' : gmap nat (PolygonEdge.t num) :=
  alter (set_nextEdge (Some next')) (S (S nr))
    (alter (set_prevEdge (Some (S (S nr)))) next'
       (relinked ES edge o nr (S nr) (S (S nr)) prev)).

Let nx' (r : nat) : option nat := ES' !! r ≫= PolygonEdge.nextEdge.
Let pv' (r : nat) : option nat := ES' !! r ≫= PolygonEdge.prevEdge.

Local Ltac lookups :=
  subst nx' pv' ES' next'; unfold relinked; cbv zeta;
  rewrite ?lookup_alter, ?lookup_insert;
  repeat (case_decide; simplify_eq/=; try lia);
  repeat match goal with
         | H : ES !! ?r = Some _ |- context [ES !! ?r] => rewrite H
         end;
  simpl; try done; try lia.

Lemma relinked_facts :
  nx' (S nr) = Some (S (S nr))
  ∧ pv' (S (S nr)) = Some (S nr)
  ∧ nx' (S (S nr)) = Some next'
  ∧ pv' next' = Some (S (S nr))
  ∧ (prev ≠ edge → nx' prev = Some (S nr) ∧ pv' (S nr) = Some prev)
  ∧ (∀ r, r < nr → r ≠ prev → nx' r = ES !! r ≫= PolygonEdge.nextEdge)
  ∧ (∀ r, r < nr → r ≠ next' → pv' r = ES !! r ≫= PolygonEdge.prevEdge).
Proof using Hbelow Ho Hprev Hnext Hprev_alloc Hnext_alloc.
  pose proof (Hbelow edge ltac:(by eexists)) as Hlt.
  pose proof (Hbelow prev Hprev_alloc) as Hltp.
  pose proof (Hbelow next Hnext_alloc) as Hltn.
  pose proof Hprev_alloc as [op Hop]. pose proof Hnext_alloc as [on Hon].
  split_and!.
  - lookups.
  - lookups.
  - lookups.
  - lookups.
  - intros Hne. split; lookups.
  - intros r Hr Hne. lookups.
  - intros r Hr Hne. lookups.
Qed.

(** Every edge of the new store is one of the two new edges or an edge
    of the old store with its end points. *)
Lemma relinked_endpoints (r : nat) (o' : PolygonEdge.t num) :
  ES' !! r = Some o' →
  (r = S nr ∧ PolygonEdge.source o' = PolygonEdge.source o
   ∧ PolygonEdge.target o' = nr)
  ∨ (r = S (S nr) ∧ PolygonEdge.source o' = nr
     ∧ PolygonEdge.target o' = PolygonEdge.target o)
  ∨ (∃ o0, ES !! r = Some o0
           ∧ PolygonEdge.source o' = PolygonEdge.source o0
           ∧ PolygonEdge.target o' = PolygonEdge.target o0).
Proof using Hbelow Ho Hprev Hnext Hprev_alloc Hnext_alloc.
  pose proof (Hbelow edge ltac:(by eexists)) as Hlt.
  pose proof (Hbelow prev Hprev_alloc) as Hltp.
  pose proof (Hbelow next Hnext_alloc) as Hltn.
  subst ES' next'. unfold relinked. cbv zeta.
  rewrite ?lookup_alter, ?lookup_insert.
  repeat (case_decide; simplify_eq/=; try lia).
  all: intros Heq.
  all: repeat match goal with
              | H : context [ES !! ?r] |- _ =>
                  lazymatch type of H with
                  | ES !! r = _ => fail
                  | _ => destruct (ES !! r) as [?|] eqn:?
                  end
              end.
  all: simplify_eq/=; eauto 10.
Qed.

End Relinked.

Lemma last_nonempty_default (l : list nat) (b d d' : nat) :
  List.last (b :: l) d = List.last (b :: l) d'.
Proof. by rewrite !last_cons_default. Qed.

(** C1: on a polygon whose edges form one closed cycle and which has as
    many vertices as edges, [addVertexOnEdge(edge, point)] for an edge of
    the polygon returns; afterwards there is one more vertex and one
    more edge, again as many vertices as edges, and the edges again form
    one closed cycle: [edge.nextEdge.prevEdge === edge] for every edge,
    and following [nextEdge] from any edge returns to it after exactly
    edge-count steps.  References do not dangle afterwards either, so
    the call can be repeated on the result. *)
Theorem addVertexOnEdge_preserves_cycle
    (w : World num) (edge : ref) (point : Point num) :
  allocated w →
  closed_cycle w →
  length (vertices (this w)) = length (edges (this w)) →
  edge ∈ edges (this w) →
  ∃ w', addVertexOnEdge edge point w = Returns (tt, w')
      ∧ length (vertices (this w')) = S (length (vertices (this w)))
      ∧ length (edges (this w')) = S (length (edges (this w)))
      ∧ length (vertices (this w')) = length (edges (this w'))
      ∧ closed_cycle w'
      ∧ allocated w'.
Proof.
  intros Halloc Hcyc Hlen Hin.
  apply closed_cycle_cycle_on in Hcyc.
  destruct (cycle_on_ring _ _ _ Hcyc edge Hin) as (l & Hring & Hperm).
  assert (∀ r, r ∈ edge :: l → is_Some (edgeStore w !! r)) as Hstored.
  { intros r Hr. rewrite Hperm in Hr.
    destruct (cycle_on_nx _ _ _ Hcyc r Hr) as (r' & Hnx & _).
    unfold nextEdge_of in Hnx. by destruct (edgeStore w !! r). }
  pose proof Hring as [Hnd Hp].
  (* the links of [edge] *)
  assert (nextEdge_of w edge = Some (List.hd edge l)) as Hnx_e
    by (destruct l; simpl in Hp; tauto).
  assert (prevEdge_of w edge = Some (List.last l edge)) as Hpv_e
    by (apply path_app in Hp as [_ Hp]; simpl in Hp; tauto).
  destruct (Hstored edge ltac:(set_solver)) as [o Ho].
  unfold nextEdge_of in Hnx_e. unfold prevEdge_of in Hpv_e.
  rewrite Ho in Hnx_e, Hpv_e. cbn [mbind option_bind] in Hnx_e, Hpv_e.
  set (next := List.hd edge l) in *. set (prev := List.last l edge) in *.
  assert (prev ∈ edge :: l) as Hprev_in by apply last_elem_of.
  assert (next ∈ edge :: l) as Hnext_in by (subst next; destruct l; set_solver).
  destruct (addVertexOnEdge_run w edge point o prev next Halloc Ho Hpv_e Hnx_e)
    as (w' & Hrun & HES & Hvs & Hes & _ & Hnr & HVS).
  pose proof Halloc as (Hvbelow & Hbelow & Hends).
  destruct (relinked_facts (edgeStore w) (nextRef w) edge prev next o
              Hbelow Ho Hpv_e Hnx_e (Hstored _ Hprev_in) (Hstored _ Hnext_in))
    as (F1 & F2 & F3 & F4 & F5 & F6 & F7).
  pose proof (relinked_endpoints (edgeStore w) (nextRef w) edge prev next o
                Hbelow Ho Hpv_e Hnx_e (Hstored _ Hprev_in) (Hstored _ Hnext_in))
    as Fends.
  rewrite <- HES in Fends.
  rewrite <- HES in F1, F2, F3, F4, F5, F6, F7.
  (* the edge sequence after the splice *)
  destruct (indexOf_spec edge (edges (this w))) as [[_ Hno]|(k & Hk & Hlook & _)];
    [done|].
  pose proof (lookup_lt_Some _ _ _ Hlook) as Hklt.
  rewrite Hk, splice_delete1 in Hes by done.
  exists w'. split_and!; [done| | | | |].
  - rewrite Hvs, splice_insert. simpl. lia.
  - rewrite Hes, !length_app, length_take, length_drop. simpl. lia.
  - rewrite Hvs, splice_insert, Hes, !length_app, length_take, length_drop.
    simpl. lia.
  - apply closed_cycle_cycle_on.
    assert (∀ r, r ∈ edge :: l → r < nextRef w) as Hold
      by (intros r Hr; apply Hbelow, Hstored, Hr).
    assert (l = [] → prev = edge) as Hnil by (intros ->; done).
    assert (l ≠ [] → prev ≠ edge ∧ prev ∈ l ∧ next ∈ l) as Hcons.
    { intros Hl. destruct l as [|b l']; [done|].
      apply NoDup_cons in Hnd as [Hnot _].
      assert (prev ∈ b :: l') as Hpl.
      { subst prev. rewrite (last_nonempty_default l' b edge b).
        rewrite last_cons_default. apply last_elem_of. }
      split_and!; [by intros Heq; rewrite Heq in Hpl|done|subst next; set_solver]. }
    apply (ring_cycle_on _ _ (S (nextRef w)) (S (S (nextRef w)) :: l)).
    + apply (ring_split (nextEdge_of w) (prevEdge_of w) _ _ edge); try done;
        unfold nextEdge_of, prevEdge_of.
      * intros Hr%Hold. lia.
      * intros Hr%Hold. lia.
      * rewrite F3. f_equal. destruct l as [|b l'].
        -- rewrite decide_True by by apply Hnil. done.
        -- rewrite decide_False by by apply Hcons. done.
      * destruct l as [|b l'].
        -- rewrite decide_True in F4 by by apply Hnil. done.
        -- rewrite decide_False in F4 by by apply Hcons. done.
      * destruct l as [|b l'].
        -- rewrite decide_True in F3 by by apply Hnil. done.
        -- rewrite (last_nonempty_default l' b _ edge). by apply F5, Hcons.
      * destruct l as [|b l'].
        -- rewrite decide_True in F4 by by apply Hnil. done.
        -- rewrite (last_nonempty_default l' b _ edge). by apply F5, Hcons.
      * intros r Hr Hne. apply F6; [apply Hold; set_solver|done].
      * intros r Hr Hne. apply F7; [apply Hold; set_solver|].
        destruct l as [|b l']; [by apply elem_of_nil in Hr|].
        rewrite decide_False by by apply Hcons. done.
    + rewrite Hes. rewrite <- (take_drop_middle _ _ _ Hlook) in Hperm.
      rewrite <- Permutation_middle in Hperm.
      apply Permutation_cons_inv in Hperm. rewrite Hperm.
      cbn [app]. rewrite <- !Permutation_middle. done.
  - destruct (Hends _ _ Ho) as [Hsrc Htgt]. split_and!.
    + intros r [->|Hr%Hvbelow]%HVS; lia.
    + intros r [o' Hr].
      destruct (Fends r o' Hr) as [(-> & _)|[(-> & _)|(o0 & Hr0 & _)]]; [lia|lia|].
      pose proof (Hbelow r ltac:(by eexists)). lia.
    + intros r o' Hr. rewrite !HVS.
      destruct (Fends r o' Hr)
        as [(_ & -> & ->)|[(_ & -> & ->)|(o0 & Hr0 & -> & ->)]]; auto.
      destruct (Hends _ _ Hr0). auto.
Qed.

End Cycle.

(** ** binary64: order *)

Section FloatOrder.

Local Ltac cmp_cases :=
  repeat match goal with
         | H : context [Pos.compare_cont Eq ?a ?b] |- _ =>
             change (Pos.compare_cont Eq a b) with (Pos.compare a b) in H
         | |- context [Pos.compare_cont Eq ?a ?b] =>
             change (Pos.compare_cont Eq a b) with (Pos.compare a b)
         end;
  repeat match goal with
         | H : context [Z.compare ?a ?b] |- _ =>
             destruct (Z.compare_spec a b); simpl in H
         | |- context [Z.compare ?a ?b] =>
             destruct (Z.compare_spec a b); simpl
         | H : context [Pos.compare ?a ?b] |- _ =>
             destruct (Pos.compare_spec a b); simpl in H
         | |- context [Pos.compare ?a ?b] =>
             destruct (Pos.compare_spec a b); simpl
         end;
  try done; try lia.

Lemma SFltb_trans (a b c : spec_float) :
  SFltb a b = true → SFltb b c = true → SFltb a c = true.
Proof.
  unfold SFltb, SFcompare.
  destruct a as [[]|[]| |[] ma ea], b as [[]|[]| |[] mb eb],
    c as [[]|[]| |[] mc ec]; simpl; try done; intros Hab Hbc;
    cmp_cases.
Qed.

Lemma SFltb_weak (a b c : spec_float) :
  SFltb a b = true → SFltb c b = false → c ≠ S754_nan → SFltb a c = true.
Proof.
  unfold SFltb, SFcompare.
  destruct a as [[]|[]| |[] ma ea], b as [[]|[]| |[] mb eb],
    c as [[]|[]| |[] mc ec]; simpl; try done; intros Hab Hbc Hc;
    cmp_cases.
Qed.

Lemma SFltb_infinity (a b : spec_float) :
  SFltb a b = true → SFltb a (S754_infinity false) = true.
Proof.
  unfold SFltb, SFcompare.
  destruct a as [[]|[]| |[] ma ea], b as [[]|[]| |[] mb eb]; simpl; try done;
    intros Hab; cmp_cases.
Qed.

Lemma SFleb_not_ltb (a b : spec_float) :
  SFleb b a = true → SFltb a b = false.
Proof.
  unfold SFleb, SFltb, SFcompare.
  destruct a as [[]|[]| |[] ma ea], b as [[]|[]| |[] mb eb]; simpl; try done;
    intros Hab; cmp_cases.
Qed.

Lemma SFltb_leb (a b : spec_float) : SFltb a b = true → SFleb a b = true.
Proof. unfold SFltb, SFleb. by destruct (SFcompare a b) as [[]|]. Qed.

Lemma SFltb_not_nan (a b : spec_float) : SFltb a b = true → a ≠ S754_nan.
Proof. by intros Hab ->. Qed.

End FloatOrder.

(** ** Snapping: [findClosestEdgePoint] *)

Section Snapping.
Context {num : Type} `{JSNumber num}.
Local Open Scope js_scope.

Lemma findClosestEdgePoint_body_eq (p : Point num) (st : Closest)
    (edge : Line num) (i : nat) :
  findClosestEdgePoint_body p st edge i
  = if accepted10 p edge && (distance (toEdge p edge) <? minDistance st)
    then mkClosest (Some (point (toEdge p edge))) (distance (toEdge p edge))
           (Some i)
    else st.
Proof.
  unfold findClosestEdgePoint_body, accepted10, toEdge.
  by destruct (_ && _ && _).
Qed.

Hypothesis lt_irrefl : ∀ a : num, (a <? a) = false.
Hypothesis lt_trans : ∀ a b c : num,
  (a <? b) = true → (b <? c) = true → (a <? c) = true.
Hypothesis lt_weak : ∀ a b c : num,
  (a <? b) = true → (c <? b) = false → (c <? THRESHOLD) = true →
  (a <? c) = true.
Hypothesis lt_Infinity : ∀ a b : num,
  (a <? b) = true → (a <? Infinity) = true.

Lemma accepted10_lt (p : Point num) (e : Line num) :
  accepted10 p e = true → (distance (toEdge p e) <? THRESHOLD) = true.
Proof. unfold accepted10. by destruct (_ <? THRESHOLD). Qed.

Lemma closest_of_snoc (p : Point num) (l : list (Line num)) (edge : Line num)
    (st : Closest) :
  closest_of p l st →
  closest_of p (l ++ [edge]) (findClosestEdgePoint_body p st edge (length l)).
Proof using lt_irrefl lt_trans lt_weak lt_Infinity.
  rewrite findClosestEdgePoint_body_eq.
  intros [[-> Hnone]|(k & e & Hk & -> & Hacc & Hmin & Hfirst)];
    cbn [minDistance].
  - destruct (accepted10 p edge) eqn:Hedge; cbn [andb].
    + rewrite (lt_Infinity _ _ (accepted10_lt _ _ Hedge)).
      right. exists (length l), edge.
      rewrite list_lookup_middle by done. split_and!; [done|done|done| |].
      * intros j e' Hj He'. apply lookup_snoc_Some in Hj as [[_ Hj]|[_ <-]].
        -- apply list_elem_of_lookup_2 in Hj. by rewrite Hnone in He'.
        -- apply lt_irrefl.
      * intros j e' Hlt Hj He'. rewrite lookup_app_l in Hj by done.
        apply list_elem_of_lookup_2 in Hj. by rewrite Hnone in He'.
    + left. split; [done|]. intros e' [He'| ->%list_elem_of_singleton]%elem_of_app;
        auto.
  - pose proof (lookup_lt_Some _ _ _ Hk) as Hklt.
    destruct (accepted10 p edge && _) eqn:Hedge.
    + apply andb_true_iff in Hedge as [Hedge Hless].
      right. exists (length l), edge.
      rewrite list_lookup_middle by done. split_and!; [done|done|done| |].
      * intros j e' Hj He'. apply lookup_snoc_Some in Hj as [[_ Hj]|[_ <-]].
        -- destruct (distance (toEdge p e') <? distance (toEdge p edge))
             eqn:Hlt; [|done].
           pose proof (Hmin j e' Hj He') as Hge.
           by rewrite (lt_trans _ _ _ Hlt Hless) in Hge.
        -- apply lt_irrefl.
      * intros j e' Hlt Hj He'. rewrite lookup_app_l in Hj by done.
        eapply lt_weak; [exact Hless|by eapply Hmin|by apply accepted10_lt].
    + right. exists k, e. rewrite lookup_app_l by done.
      split_and!; [done|done|done| |].
      * intros j e' Hj He'. apply lookup_snoc_Some in Hj as [[_ Hj]|[_ <-]].
        -- by eapply Hmin.
        -- by rewrite He' in Hedge.
      * intros j e' Hlt Hj He'. rewrite lookup_app_l in Hj by lia.
        by eapply Hfirst.
Qed.

Lemma closest_of_forEach (p : Point num) (l : list (Line num)) :
  closest_of p l
    (Array.forEach (findClosestEdgePoint_body p) l
       (mkClosest None Infinity None)).
Proof using lt_irrefl lt_trans lt_weak lt_Infinity.
  induction l as [|edge l IH] using rev_ind.
  - left. split; [done|]. intros ? Hin. by apply elem_of_nil in Hin.
  - rewrite forEach_snoc. by apply closest_of_snoc.
Qed.

(** The result of [findClosestEdgePoint], read off the loop
    invariant. *)
Lemma findClosestEdgePoint_closest (edges : list (Line num))
    (toLocalPoint : Point num → Point num) (globalPointer : Point num) :
  let p := toLocalPoint globalPointer in
  (findClosestEdgePoint edges toLocalPoint globalPointer = None
   ∧ ∀ edge, edge ∈ edges → accepted10 p edge = false)
  ∨ (∃ (k : nat) edge,
       findClosestEdgePoint edges toLocalPoint globalPointer
       = Some (point (toEdge p edge), k)
       ∧ edges !! k = Some edge
       ∧ accepted10 p edge = true
       ∧ (∀ j edge', edges !! j = Some edge' → accepted10 p edge' = true →
            (distance (toEdge p edge') <? distance (toEdge p edge)) = false)
       ∧ (∀ j edge', (j < k)%nat → edges !! j = Some edge' →
            accepted10 p edge' = true →
            (distance (toEdge p edge) <? distance (toEdge p edge')) = true)).
Proof using lt_irrefl lt_trans lt_weak lt_Infinity.
  intros p. unfold findClosestEdgePoint. fold p.
  destruct (closest_of_forEach p edges)
    as [[-> Hnone]|(k & e & Hk & -> & Hacc & Hmin & Hfirst)];
    cbn [closestPoint closestEdge].
  - by left.
  - right. by exists k, e.
Qed.

End Snapping.

(** ** binary64: the operations on zero and [NaN] *)

Section FloatFacts.
Local Open Scope float_scope.

Lemma SFltb_irrefl (a : spec_float) : SFltb a a = false.
Proof.
  unfold SFltb, SFcompare. destruct a as [[]|[]| |[] m e]; simpl; try done;
    rewrite Z.compare_refl; change (Pos.compare_cont Eq m m) with (Pos.compare m m);
    by rewrite Pos.compare_refl.
Qed.

Lemma float_lt_irrefl (a : float) : (a <? a) = false.
Proof. rewrite FloatAxioms.ltb_spec. apply SFltb_irrefl. Qed.

Lemma float_lt_trans (a b c : float) :
  (a <? b) = true → (b <? c) = true → (a <? c) = true.
Proof. rewrite !FloatAxioms.ltb_spec. apply SFltb_trans. Qed.

Lemma float_lt_weak (a b c d : float) :
  (a <? b) = true → (c <? b) = false → (c <? d) = true → (a <? c) = true.
Proof.
  rewrite !FloatAxioms.ltb_spec. intros Hab Hcb Hcd.
  eapply SFltb_weak; [exact Hab|exact Hcb|by eapply SFltb_not_nan].
Qed.

Lemma float_lt_infinity (a b : float) :
  (a <? b) = true → (a <? infinity) = true.
Proof. rewrite !FloatAxioms.ltb_spec. apply SFltb_infinity. Qed.

Lemma float_le_not_lt (a b : float) : (b <=? a) = true → (a <? b) = false.
Proof. rewrite FloatAxioms.leb_spec, FloatAxioms.ltb_spec. apply SFleb_not_ltb. Qed.

Lemma float_lt_le (a b : float) : (a <? b) = true → (a <=? b) = true.
Proof. rewrite FloatAxioms.leb_spec, FloatAxioms.ltb_spec. apply SFltb_leb. Qed.

Lemma is_nan_spec (a : float) : is_nan a = true ↔ Prim2SF a = S754_nan.
Proof.
  unfold is_nan. rewrite FloatAxioms.eqb_spec. unfold SFeqb, SFcompare.
  destruct (Prim2SF a) as [[]|[]| |[] m e]; simpl; try done;
    rewrite Z.compare_refl; change (Pos.compare_cont Eq m m) with (Pos.compare m m);
    by rewrite Pos.compare_refl.
Qed.

Lemma is_nan_eq (a : float) : is_nan a = true ↔ a = nan.
Proof.
  split; [|by intros ->].
  intros Ha%is_nan_spec. by apply Prim2SF_inj.
Qed.

Lemma sub_eqb_zero_or_nan (a b : float) :
  (a =? b) = true → zero_or_nan (b - a).
Proof.
  unfold zero_or_nan. rewrite FloatAxioms.eqb_spec, FloatAxioms.sub_spec.
  unfold SFeqb, SFcompare, SF64sub, SFsub.
  destruct (Prim2SF a) as [[]|[]| |[] ma ea], (Prim2SF b) as [[]|[]| |[] mb eb];
    simpl; try done.
  all: destruct (Z.compare_spec ea eb) as [->| |]; try done.
  all: change (Pos.compare_cont Eq ma mb) with (Pos.compare ma mb).
  all: destruct (Pos.compare_spec ma mb) as [->| |]; try done.
  all: by rewrite Z.sub_diag.
Qed.

Lemma mul_zero_or_nan (a b : float) : zero_or_nan b → zero_or_nan (a * b).
Proof.
  unfold zero_or_nan. rewrite FloatAxioms.mul_spec. unfold SF64mul, SFmul.
  by destruct (Prim2SF a) as [[]|[]| |[] ma ea], (Prim2SF b) as [[]|[]| |[] mb eb].
Qed.

Lemma add_zero_or_nan (a b : float) :
  zero_or_nan a → zero_or_nan b → zero_or_nan (a + b).
Proof.
  unfold zero_or_nan. rewrite FloatAxioms.add_spec. unfold SF64add, SFadd.
  by destruct (Prim2SF a) as [[]|[]| |[] ma ea], (Prim2SF b) as [[]|[]| |[] mb eb].
Qed.

Lemma div_zero_or_nan (a b : float) :
  zero_or_nan a → zero_or_nan b → a / b = nan.
Proof.
  unfold zero_or_nan. intros Ha Hb. apply Prim2SF_inj. rewrite FloatAxioms.div_spec.
  unfold SF64div, SFdiv.
  by destruct (Prim2SF a) as [[]|[]| |[] ma ea], (Prim2SF b) as [[]|[]| |[] mb eb].
Qed.

Lemma mul_nan_l (a : float) : nan * a = nan.
Proof.
  apply Prim2SF_inj. rewrite FloatAxioms.mul_spec. unfold SF64mul, SFmul.
  change (Prim2SF nan) with S754_nan. done.
Qed.

Lemma add_nan_r (a : float) : a + nan = nan.
Proof.
  apply Prim2SF_inj. rewrite FloatAxioms.add_spec. unfold SF64add, SFadd.
  change (Prim2SF nan) with S754_nan. by destruct (Prim2SF a) as [[]|[]| |[] ? ?].
Qed.

Lemma sub_nan_r (a : float) : a - nan = nan.
Proof.
  apply Prim2SF_inj. rewrite FloatAxioms.sub_spec. unfold SF64sub, SFsub.
  change (Prim2SF nan) with S754_nan. by destruct (Prim2SF a) as [[]|[]| |[] ? ?].
Qed.

End FloatFacts.

(** ** Zero-length segments in binary64 *)

Section Degenerate.
Local Open Scope float_scope.

(** Finite and equal coordinates differ by a zero. *)
Lemma sub_eqb_finite_zero (a b : float) :
  (a =? b) = true → is_finite a = true →
  ∃ s, Prim2SF (b - a) = S754_zero s.
Proof.
  unfold is_finite, is_nan, is_infinity.
  rewrite !FloatAxioms.eqb_spec, abs_spec, FloatAxioms.sub_spec.
  change (Prim2SF infinity) with (S754_infinity false).
  unfold SFeqb, SFcompare, SF64sub, SFsub.
  destruct (Prim2SF a) as [[]|[]| |[] ma ea], (Prim2SF b) as [[]|[]| |[] mb eb];
    simpl; try done; eauto.
  all: destruct (Z.compare_spec ea eb) as [->| |]; try done.
  all: change (Pos.compare_cont Eq ma mb) with (Pos.compare ma mb).
  all: destruct (Pos.compare_spec ma mb) as [->| |]; try done.
  all: rewrite Z.sub_diag; eauto.
Qed.

Lemma zero_lengthSq (a b : float) :
  (∃ s, Prim2SF a = S754_zero s) → (∃ s, Prim2SF b = S754_zero s) →
  (a * a + b * b =? 0) = true.
Proof.
  intros [sa Ha] [sb Hb].
  rewrite FloatAxioms.eqb_spec, FloatAxioms.add_spec, !FloatAxioms.mul_spec, Ha, Hb.
  by destruct sa, sb.
Qed.

(** On a zero-length segment the quotient is [0/0]: the parameter, the
    projection and the distance are all [NaN]. *)
Lemma getPointToLineDistance_degenerate (P A B : Point float) :
  (x A =? x B) = true → (y A =? y B) = true →
  getPointToLineDistance P A B = mkPointToLine nan (mkPoint nan nan) nan.
Proof.
  intros Hx Hy. unfold getPointToLineDistance. cbn [x y].
  pose proof (sub_eqb_zero_or_nan _ _ Hx) as Hlx.
  pose proof (sub_eqb_zero_or_nan _ _ Hy) as Hly.
  cbn [num_add num_sub num_mul num_div Math_max Math_min Math_sqrt lit
       float_JSNumber] in *.
  unfold Math_pow2.
  cbn [num_add num_sub num_mul num_div Math_max Math_min Math_sqrt lit
       float_JSNumber] in *.
  set (lx := x B - x A) in *. set (ly := y B - y A) in *.
  rewrite (div_zero_or_nan (_ + _) (_ + _))
    by (apply add_zero_or_nan; by apply mul_zero_or_nan).
  change (float_max (float_lit 0) (float_min (float_lit 1) nan)) with nan.
  rewrite !mul_nan_l, !add_nan_r, !sub_nan_r, !mul_nan_l, !add_nan_r.
  reflexivity.
Qed.

End Degenerate.

(** ** Snapping in binary64 *)

Section FloatSnapping.
Variable edges : list (Line float).
Variable toLocalPoint : Point float → Point float.
Variable globalPointer : Point float.

Let p : Point float := toLocalPoint globalPointer.

Lemma float_findClosestEdgePoint_closest :
  (findClosestEdgePoint edges toLocalPoint globalPointer = None
   ∧ ∀ edge, edge ∈ edges → accepted10 p edge = false)
  ∨ (∃ (k : nat) edge,
       findClosestEdgePoint edges toLocalPoint globalPointer
       = Some (point (toEdge p edge), k)
       ∧ edges !! k = Some edge
       ∧ accepted10 p edge = true
       ∧ (∀ j edge', edges !! j = Some edge' → accepted10 p edge' = true →
            (distance (toEdge p edge') <? distance (toEdge p edge))%float = false)
       ∧ (∀ j edge', j < k → edges !! j = Some edge' →
            accepted10 p edge' = true →
            (distance (toEdge p edge) <? distance (toEdge p edge'))%float = true)).
Proof.
  exact (findClosestEdgePoint_closest (num := float)
           float_lt_irrefl float_lt_trans
           (λ a b c, float_lt_weak a b c THRESHOLD) float_lt_infinity
           edges toLocalPoint globalPointer).
Qed.

End FloatSnapping.

(** C7, as amended: [findClosestEdgePoint] returns none exactly when no
    edge passes the acceptance test [distance < THRESHOLD] and
    [0 <= t <= 1], in particular when every edge is at distance
    [THRESHOLD] or more; otherwise it returns the projection on an
    accepted edge, whose distance is strictly less than [THRESHOLD],
    such that no accepted edge is strictly closer and every accepted
    edge earlier in the sequence is strictly farther. *)
Theorem findClosestEdgePoint_spec (edges : list (Line float))
    (toLocalPoint : Point float → Point float) (globalPointer : Point float) :
  let p := toLocalPoint globalPointer in
  (findClosestEdgePoint edges toLocalPoint globalPointer = None
   ↔ ∀ edge, edge ∈ edges → accepted10 p edge = false)
  ∧ ((∀ edge, edge ∈ edges →
        (THRESHOLD <=? distance (toEdge p edge))%float = true) →
     findClosestEdgePoint edges toLocalPoint globalPointer = None)
  ∧ (∀ pt k,
       findClosestEdgePoint edges toLocalPoint globalPointer = Some (pt, k) →
       ∃ edge,
         edges !! k = Some edge
         ∧ pt = point (toEdge p edge)
         ∧ accepted10 p edge = true
         ∧ (distance (toEdge p edge) <? THRESHOLD)%float = true
         ∧ (∀ j edge', edges !! j = Some edge' → accepted10 p edge' = true →
              (distance (toEdge p edge') <? distance (toEdge p edge))%float
              = false)
         ∧ (∀ j edge', j < k → edges !! j = Some edge' →
              accepted10 p edge' = true →
              (distance (toEdge p edge) <? distance (toEdge p edge'))%float
              = true)).
Proof.
  intros p.
  pose proof (float_findClosestEdgePoint_closest edges toLocalPoint globalPointer)
    as Hcl. fold p in Hcl.
  assert (findClosestEdgePoint edges toLocalPoint globalPointer = None
          ↔ ∀ edge, edge ∈ edges → accepted10 p edge = false) as Hnone.
  { destruct Hcl as [[-> Hno]|(k & e & -> & Hk & Hacc & _)]; [done|].
    split; [done|]. intros Hno. apply list_elem_of_lookup_2 in Hk.
    by rewrite (Hno e Hk) in Hacc. }
  split_and!; [done| |].
  - intros Hfar. apply Hnone. intros e He. unfold accepted10.
    change (distance (toEdge p e) <? THRESHOLD)%js
      with (distance (toEdge p e) <? THRESHOLD)%float.
    by rewrite (float_le_not_lt _ _ (Hfar e He)).
  - intros pt k Hres.
    destruct Hcl as [[Hn _]|(k' & e & Hsome & Hk & Hacc & Hmin & Hfirst)];
      [congruence|].
    rewrite Hsome in Hres. injection Hres as <- <-.
    exists e. split_and!; try done.
    exact (accepted10_lt (num := float) p e Hacc).
Qed.

(** C10: an edge of zero length (equal finite end points) makes the
    divisor zero and the parameter, projection and distance [NaN]; it
    fails the acceptance test, and [findClosestEdgePoint], which is a
    total function of the edge list and the pointer, never returns
    it. *)
Theorem findClosestEdgePoint_zero_length_edge (edges : list (Line float))
    (toLocalPoint : Point float → Point float) (globalPointer : Point float)
    (k : nat) (edge : Line float) :
  edges !! k = Some edge →
  is_finite (x1 edge) = true → is_finite (y1 edge) = true →
  (x1 edge =? x2 edge)%float = true → (y1 edge =? y2 edge)%float = true →
  let p := toLocalPoint globalPointer in
  let lineVector := mkPoint (x2 edge - x1 edge)%float (y2 edge - y1 edge)%float in
  (x lineVector * x lineVector + y lineVector * y lineVector =? 0)%float = true
  ∧ toEdge p edge = mkPointToLine nan (mkPoint nan nan) nan
  ∧ is_finite (t (toEdge p edge)) = false
  ∧ is_finite (distance (toEdge p edge)) = false
  ∧ accepted10 p edge = false
  ∧ ∀ pt, findClosestEdgePoint edges toLocalPoint globalPointer ≠ Some (pt, k).
Proof.
  intros Hk Hfx Hfy Hx Hy p lineVector.
  assert (toEdge p edge = mkPointToLine nan (mkPoint nan nan) nan) as Hnan
    by by apply getPointToLineDistance_degenerate.
  assert (accepted10 p edge = false) as Hrej by (unfold accepted10; by rewrite Hnan).
  split_and!; [|done|by rewrite Hnan|by rewrite Hnan|done|].
  - apply zero_lengthSq; by apply sub_eqb_finite_zero.
  - intros pt Hres.
    destruct (float_findClosestEdgePoint_closest edges toLocalPoint globalPointer)
      as [[Hn _]|(k' & e & Hsome & Hk' & Hacc & _)]; [congruence|].
    rewrite Hsome in Hres. injection Hres as _ ->.
    assert (e = edge) as -> by congruence. fold p in Hacc. congruence.
Qed.

(** ** [getPointToLineDistance] *)

Section ClampFloat.
Local Open Scope float_scope.

(** [Math.max(0, Math.min(1, q))] is [NaN] or lies in [[0, 1]]. *)
Lemma float_clamp_range (q : float) :
  let t := float_max (float_lit 0) (float_min (float_lit 1) q) in
  is_nan t = true ∨ ((float_lit 0 <=? t) && (t <=? float_lit 1)) = true.
Proof.
  change (float_lit 0) with 0. change (float_lit 1) with 1.
  unfold float_min. change (is_nan 1) with false. cbn [orb].
  destruct (is_nan q) eqn:Hq; [by left|].
  destruct (1 <? q) eqn:H1q; [by right|].
  destruct (q <? 1) eqn:Hq1; [|by right].
  unfold float_max. change (is_nan 0) with false. rewrite Hq. cbn [orb].
  destruct (0 <? q) eqn:H0q.
  - right. by rewrite (float_lt_le _ _ H0q), (float_lt_le _ _ Hq1).
  - destruct (q <? 0) eqn:Hq0; by right.
Qed.

End ClampFloat.


(** C2 (the code departs from the claim): the divisor [lineLengthSq] is
    not guarded.  On a zero-length segment the quotient is [0/0], so the
    parameter, the projection and the distance are all [NaN], where the
    claim has [t = 0] and the distance to the single point: for
    [P = (1,1)] and [A = B = (0,0)] the distance is [NaN], not [√2].  A
    segment so short that its squared length underflows to zero does the
    same: from [(0,0)] to [(2^-600, 0)], queried at [(0,0)].  On every
    input the parameter is [NaN] or lies in [[0, 1]]. *)
Theorem getPointToLineDistance_zero_length_nan :
  (∀ P A B : Point float,
     let r := getPointToLineDistance P A B in
     is_nan (t r) = true ∨ ((lit 0 <=? t r) && (t r <=? lit 1))%js = true)
  ∧ (∀ P A B : Point float,
       (x A =? x B)%float = true → (y A =? y B)%float = true →
       getPointToLineDistance P A B = mkPointToLine nan (mkPoint nan nan) nan
       ∧ ¬ clamped_with_point_fallback P A B)
  ∧ getPointToLineDistance (pt 1 1) (pt 0 0) (pt 0 0)
    = mkPointToLine nan (mkPoint nan nan) nan
  ∧ getPointToLineDistance (pt 0 0) (pt 0 0) (mkPoint 0x1p-600%float 0%float)
    = mkPointToLine nan (mkPoint nan nan) nan.
Proof.
  split_and!.
  - intros P A B r. apply float_clamp_range.
  - intros P A B Hx Hy.
    pose proof (getPointToLineDistance_degenerate P A B Hx Hy) as Hnan.
    split; [exact Hnan|].
    unfold clamped_with_point_fallback. rewrite Hnan. cbn [t].
    intros (Ht & _). vm_compute in Ht. discriminate.
  - vm_compute. reflexivity.
  - vm_compute. reflexivity.
Qed.

Lemma getPointToLineDistance_zero_length_nan_witness :
  getPointToLineDistance (pt 3 4) (pt 7 7) (pt 7 7)
  = mkPointToLine nan (mkPoint nan nan) nan
  ∧ ¬ clamped_with_point_fallback (pt 3 4) (pt 7 7) (pt 7 7).
Proof.
  apply (proj1 (proj2 getPointToLineDistance_zero_length_nan)
           (pt 3 4) (pt 7 7) (pt 7 7));
    vm_compute; reflexivity.
Defined.

(** C3 (the code departs from the claim): on the square of side 100,
    the start point [(1,0)] lies on edge 0 and is within 5 units of
    edge 3 as well; edge 0 is the nearer, but the routing loop keeps
    the last edge that accepts the point, edge 3, and moves the point to
    the corner [(0,0)], which becomes the first point of the path. *)
Theorem findPathBetweenPoints_keeps_last_accepted_edge :
  let edges := square 100 in
  let localStart := pt 1 0 in
  let localEnd := pt 50 100 in
  accepts localStart (ln 0 0 100 0) = true
  ∧ accepts localStart (ln 0 100 0 0) = true
  ∧ (distance (toEdge localStart (ln 0 0 100 0))
     <? distance (toEdge localStart (ln 0 100 0 0)))%js = true
  ∧ snapped localStart (ln 0 0 100 0) = pt 1 0
  ∧ findClosestEdgePoint edges (λ p, p) localStart = Some (pt 1 0, 0)
  ∧ startEdgeIndex (resnap edges localStart localEnd) = 3%Z
  ∧ findPathBetweenPoints edges localStart localEnd
    = Returns [pt 0 0; pt 0 0; pt 100 0; pt 100 100; pt 50 100].
Proof. vm_compute. repeat split. Qed.

(** C5 (the code departs from the claim): on the square of side 100,
    [(1,0)] and [(50,0)] both lie on edge 0 and are what
    [findClosestEdgePoint] returns for themselves, but the routing loop
    moves [(1,0)] to the corner [(0,0)] of edge 3 and returns three
    points; [(0,1)] and [(0,50)] both lie on edge 3, and the loop moves
    [(0,1)] to the corner [(0,0)] by way of edge 0, so that the two
    points returned are not the two given. *)
Theorem findPathBetweenPoints_same_edge_moves_endpoint :
  let edges := square 100 in
  findClosestEdgePoint edges (λ p, p) (pt 1 0) = Some (pt 1 0, 0)
  ∧ findClosestEdgePoint edges (λ p, p) (pt 50 0) = Some (pt 50 0, 0)
  ∧ accepts (pt 1 0) (ln 0 0 100 0) = true
  ∧ snapped (pt 1 0) (ln 0 0 100 0) = pt 1 0
  ∧ accepts (pt 50 0) (ln 0 0 100 0) = true
  ∧ snapped (pt 50 0) (ln 0 0 100 0) = pt 50 0
  ∧ startEdgeIndex (resnap edges (pt 1 0) (pt 50 0)) = 3%Z
  ∧ endEdgeIndex (resnap edges (pt 1 0) (pt 50 0)) = 0%Z
  ∧ findPathBetweenPoints edges (pt 1 0) (pt 50 0)
    = Returns [pt 0 0; pt 0 0; pt 50 0]
  ∧ findClosestEdgePoint edges (λ p, p) (pt 0 1) = Some (pt 0 1, 3)
  ∧ findClosestEdgePoint edges (λ p, p) (pt 0 50) = Some (pt 0 50, 3)
  ∧ accepts (pt 0 1) (ln 0 100 0 0) = true
  ∧ snapped (pt 0 1) (ln 0 100 0 0) = pt 0 1
  ∧ accepts (pt 0 50) (ln 0 100 0 0) = true
  ∧ snapped (pt 0 50) (ln 0 100 0 0) = pt 0 50
  ∧ startEdgeIndex (resnap edges (pt 0 1) (pt 0 50)) = 3%Z
  ∧ endEdgeIndex (resnap edges (pt 0 1) (pt 0 50)) = 3%Z
  ∧ findPathBetweenPoints edges (pt 0 1) (pt 0 50)
    = Returns [pt 0 0; pt 0 50].
Proof. vm_compute. repeat split. Qed.

(** C7, counterexample: the point [(5,10)] is at distance exactly 10
    from the single edge [(0,0)-(10,0)]: it is not farther than
    [THRESHOLD] from it, and [findClosestEdgePoint] returns none. *)
Lemma findClosestEdgePoint_boundary_counterexample :
  ¬ none_iff_all_farther [ln 0 0 10 0] (λ p, p) (pt 5 10).
Proof.
  unfold none_iff_all_farther.
  change (forallb _ [ln 0 0 10 0]) with false. cbv iota.
  intros (q & k & edge & Hres & _). vm_compute in Hres. discriminate.
Qed.

(** ** The claims at concrete inputs *)

Lemma square_world_allocated : allocated square_world.
Proof.
  split_and!.
  - intros r [o Hr]. apply elem_of_list_to_map_2 in Hr. cbn [CustomPolygon.nextRef square_world].
    repeat (apply elem_of_cons in Hr as [[= -> _]|Hr]; [lia|]).
    by apply elem_of_nil in Hr.
  - intros r [o Hr]. apply elem_of_list_to_map_2 in Hr. cbn [CustomPolygon.nextRef square_world].
    repeat (apply elem_of_cons in Hr as [[= -> _]|Hr]; [lia|]).
    by apply elem_of_nil in Hr.
  - intros r o Hr. apply elem_of_list_to_map_2 in Hr.
    repeat (apply elem_of_cons in Hr as [[= -> ->]|Hr];
            [split; eexists; reflexivity|]).
    by apply elem_of_nil in Hr.
Qed.

Lemma square_world_closed_cycle : closed_cycle square_world.
Proof.
  apply closed_cycle_cycle_on. apply (ring_cycle_on _ _ 4 [5; 6; 7]); [|done].
  split.
  - repeat (apply NoDup_cons; split; [set_solver|]). apply NoDup_nil_2.
  - repeat split.
Qed.

Lemma addVertexOnEdge_preserves_cycle_witness :
  ∃ w', CustomPolygon.addVertexOnEdge 5 (pt 100 50) square_world = Returns (tt, w')
      ∧ length (CustomPolygon.vertices (CustomPolygon.this w')) = 5
      ∧ length (CustomPolygon.edges (CustomPolygon.this w')) = 5
      ∧ closed_cycle w'.
Proof.
  destruct (addVertexOnEdge_preserves_cycle square_world 5 (pt 100 50)
              square_world_allocated square_world_closed_cycle)
    as (w' & Hrun & Hv & He & _ & Hcyc & _).
  - reflexivity.
  - set_solver.
  - exists w'. split_and!; [exact Hrun|exact Hv|exact He|exact Hcyc].
Defined.

Lemma findPathBetweenPoints_walks_forward_witness :
  findClosestEdgePoint (square 100) (λ p, p) (pt 50 3) = Some (pt 50 0, 0)
  ∧ findClosestEdgePoint (square 100) (λ p, p) (pt 50 97) = Some (pt 50 100, 2)
  ∧ ∃ path, findPathBetweenPoints (square 100) (pt 50 0) (pt 50 100) = Returns path
            ∧ length path = 4.
Proof.
  split; [vm_compute; reflexivity|]. split; [vm_compute; reflexivity|].
  destruct (findPathBetweenPoints_walks_forward (square 100) (pt 50 0) (pt 50 100))
    as (vs & Hrun & _ & _ & Hfour).
  - vm_compute. discriminate.
  - vm_compute. discriminate.
  - vm_compute. discriminate.
  - eexists. split; [exact Hrun|]. apply Hfour; vm_compute; reflexivity.
Defined.

Lemma findPathBetweenPoints_empty_iff_witness :
  findPathBetweenPoints (square 100) (pt 50 50) (pt 50 0) = Returns [].
Proof.
  apply (proj2 (findPathBetweenPoints_empty_iff (square 100) (pt 50 50) (pt 50 0))).
  left. intros edge Hin.
  repeat (apply elem_of_cons in Hin as [->|Hin]; [vm_compute; reflexivity|]).
  by apply elem_of_nil in Hin.
Defined.

Lemma findClosestEdgePoint_spec_witness :
  ∃ edge, square 100 !! 0 = Some edge
          ∧ pt 50 0 = point (toEdge (pt 50 3) edge)
          ∧ (distance (toEdge (pt 50 3) edge) <? THRESHOLD)%float = true.
Proof.
  destruct (proj2 (proj2 (findClosestEdgePoint_spec (square 100) (λ p, p) (pt 50 3)))
              (pt 50 0) 0)
    as (edge & Hk & Hpt & _ & Hlt & _).
  - vm_compute. reflexivity.
  - exists edge. split_and!; [exact Hk|exact Hpt|exact Hlt].
Defined.

Lemma findClosestEdgePoint_zero_length_edge_witness :
  toEdge (pt 0 0) (ln 3 4 3 4) = mkPointToLine nan (mkPoint nan nan) nan
  ∧ ∀ q, findClosestEdgePoint [ln 0 0 10 0; ln 3 4 3 4] (λ p, p) (pt 3 4)
         ≠ Some (q, 1).
Proof.
  split.
  - apply (findClosestEdgePoint_zero_length_edge
             [ln 0 0 10 0; ln 3 4 3 4] (λ p, p) (pt 0 0) 1 (ln 3 4 3 4));
      vm_compute; reflexivity.
  - apply (findClosestEdgePoint_zero_length_edge
             [ln 0 0 10 0; ln 3 4 3 4] (λ p, p) (pt 3 4) 1 (ln 3 4 3 4));
      vm_compute; reflexivity.
Defined.

Lemma removeDoor_spec_witness :
  (∃ w', CustomPolygon.removeDoor 8 square_world = Returns (tt, w')
         ∧ CustomPolygon.doors (CustomPolygon.this w') = []
         ∧ OfPath 8 ∉ CustomPolygon._objects (CustomPolygon.this w'))
  ∧ CustomPolygon.removeDoor 5 square_world = Returns (tt, square_world).
Proof.
  split.
  - destruct (proj1 (removeDoor_spec square_world 8))
      as (k & w' & Hrun & Hk & _ & Hdoors & _ & _ & _ & _ & Hgone).
    + set_solver.
    + exists w'. split_and!; [exact Hrun| |].
      * rewrite Hdoors. destruct k as [|[|k]]; [reflexivity|discriminate|discriminate].
      * apply Hgone. apply NoDup_singleton.
  - apply (proj2 (removeDoor_spec square_world 5)). set_solver.
Defined.

Lemma handleMouseDown_routing_failure_witness :
  ∃ tl', handleMouseDown (square 100) (λ p, p) (pt 50 3) awaiting_second_point
           square_world = Returns (tl', square_world)
         ∧ isDrawing tl' = false ∧ startPoint tl' = None.
Proof.
  destruct (handleMouseDown_routing_failure (square 100) (λ p, p) (pt 50 3)
              awaiting_second_point square_world (pt 50 0) 0 (pt 1000 1000) [])
    as (tl' & w' & Hrun & Hidle & Hstart & Hw & _).
  - reflexivity.
  - reflexivity.
  - vm_compute. reflexivity.
  - vm_compute. reflexivity.
  - simpl. lia.
  - exists tl'. rewrite Hw in Hrun. split_and!; [exact Hrun|exact Hidle|exact Hstart].
Defined.


(* ===================================================================== *)
(** * Part IV.  Further properties of the code                            *)
(* ===================================================================== *)

(** ** The distance of [getPointToLineDistance] *)

Section FloatDistance.
Local Open Scope float_scope.

(** A square root is [NaN], or a number that is not below zero. *)
Lemma SFsqrt_not_negative (s : spec_float) :
  SFltb (SF64sqrt s) (S754_zero false) = false
  ∧ (SF64sqrt s = S754_nan ∨ SFleb (S754_zero false) (SF64sqrt s) = true).
Proof.
  unfold SF64sqrt, SFsqrt.
  destruct s as [[]|[]| |[] m e]; try (split; [done|by auto]).
  destruct (SFsqrt_core_binary _ _ _ _) as [[mz ez] lz].
  unfold binary_round_aux.
  destruct (shr_fexp _ _ mz ez lz) as [mrs' e'].
  destruct (shr_fexp _ _ _ e' _) as [mrs'' e''].
  destruct (shr_m mrs''); try (split; [done|by auto]).
  destruct (_ <=? _)%Z; split; try done; by auto.
Qed.

(** X4: whatever the point and the segment, [getPointToLineDistance]
    never reports a distance below zero: the distance is [NaN], or it is
    at least [0]. *)
Theorem getPointToLineDistance_distance_not_negative (P A B : Point float) :
  let d := distance (getPointToLineDistance P A B) in
  (d <? 0) = false ∧ (is_nan d = true ∨ (0 <=? d) = true).
Proof.
  intros d. subst d. unfold getPointToLineDistance. cbn [distance].
  cbn [Math_sqrt float_JSNumber].
  rewrite FloatAxioms.ltb_spec, FloatAxioms.leb_spec, is_nan_spec,
    FloatAxioms.sqrt_spec.
  apply SFsqrt_not_negative.
Qed.

End FloatDistance.

(** ** Routing in both directions *)

(** X3: when the routing loop leaves two different edge indices, a path
    is found in both directions; the two paths walk the ring the same
    way round, so together their interior points are one end vertex of
    every edge, and neither path is the direct one: each has at least
    one interior vertex. *)
Theorem findPathBetweenPoints_two_ways
    {num : Type} `{JSNumber num} (edges : list (Line num)) (s e : Point num) :
  let st := resnap edges s e in
  let i := startEdgeIndex st in
  let j := endEdgeIndex st in
  i ≠ (-1)%Z → j ≠ (-1)%Z → i ≠ j →
  ∃ vs vs',
    findPathBetweenPoints edges s e
    = Returns (localStart st :: vs ++ [localEnd st])
    ∧ findPathBetweenPoints edges e s
      = Returns (localEnd st :: vs' ++ [localStart st])
    ∧ length vs + length vs' = length edges
    ∧ 0 < length vs ∧ 0 < length vs'.
Proof.
  intros st i j Hi Hj Hij.
  pose proof (resnap_index_range edges s) as Hs.
  pose proof (resnap_index_range edges e) as He. cbv zeta in Hs, He.
  unfold findPathBetweenPoints. subst i j st. rewrite !resnap_split in *.
  cbn [startEdgeIndex endEdgeIndex localStart localEnd] in *.
  destruct (Array.forEach snap1 edges (_, s)) as [i s'],
           (Array.forEach snap1 edges (_, e)) as [j e']; cbn [fst snd] in *.
  destruct (Z.eqb_spec i (-1)); [done|].
  destruct (Z.eqb_spec j (-1)); [done|]. cbn [orb].
  destruct (Z.eqb_spec i j); [done|].
  destruct (Z.eqb_spec j i); [congruence|].
  specialize (Hs Hi). specialize (He Hj).
  pose proof (Z.mod_pos_bound (j - i) (Z.of_nat (length edges))) as Hb1.
  pose proof (Z.mod_pos_bound (i - j) (Z.of_nat (length edges))) as Hb2.
  destruct (walk_forward edges j (length edges) i [s']) as (vs & -> & Hlen & _);
    [auto|auto|lia|].
  destruct (walk_forward edges i (length edges) j [e']) as (vs' & -> & Hlen' & _);
    [auto|auto|lia|].
  exists vs, vs'. split_and!; [done|done| | |].
  all: rewrite mod_gap in Hlen, Hlen' by done.
  all: destruct (Z.leb_spec i j), (Z.leb_spec j i); lia.
Qed.

(** ** [addVertexOnEdge]: the store after the call *)

Section Polygon.
Context {num : Type} `{JSNumber num}.
Import CustomPolygon.
Local Open Scope js_scope.

Lemma addVertexOnEdge_result (w : World num) (edge : ref) (point : Point num)
    (o : PolygonEdge.t num) (prev next : ref) :
  allocated w →
  edgeStore w !! edge = Some o →
  PolygonEdge.prevEdge o = Some prev →
  PolygonEdge.nextEdge o = Some next →
  let newVertex := nextRef w in
  let newEdge1 := S (nextRef w) in
  let newEdge2 := S (S (nextRef w)) in
  let es6 := relinked (edgeStore w) edge o newVertex newEdge1 newEdge2 prev in
  let next' := if decide (prev = edge) then newEdge1 else next in
  let vs' := Array.splice (vertices (this w))
               (Array.indexOf (vertices (this w)) (PolygonEdge.target o)) 0
               [newVertex] in
  let es' := Array.splice (edges (this w))
               (Array.indexOf (edges (this w)) edge) 1 [newEdge1; newEdge2] in
  addVertexOnEdge edge point w
  = Returns (tt,
      mkWorld
        (reattached (vertexStore w) edge o newVertex newEdge1 newEdge2
           (x point - lit 6) (y point - lit 6))
        (alter (set_nextEdge (Some next')) newEdge2
           (alter (set_prevEdge (Some newEdge2)) next' es6))
        (pathStore w) (S (S (S (nextRef w))))
        (mk vs' es' (doors (this w))
           ((OfVertex <$> vs') ++ (OfEdge <$> es')
              ++ (OfPath <$> doors (this w))))).
Proof.
  intros (Hv & He & Hends) Ho Hprev Hnext.
  destruct (Hends _ _ Ho) as [[vsrc Hsrc] [vtgt Htgt]].
  pose proof (He edge ltac:(by eexists)) as Hlt.
  pose proof (Hv (PolygonEdge.source o) ltac:(by eexists)) as Hlts.
  pose proof (Hv (PolygonEdge.target o) ltac:(by eexists)) as Hltt.
  intros newVertex newEdge1 newEdge2 es6 next' vs' es'.
  destruct w as [VS ES PS nr poly]; cbn [vertexStore edgeStore nextRef this] in *.
  unfold addVertexOnEdge, bind, new_PolygonVertex, new_PolygonEdge, readEdge,
    readVertex, readThis, writeVertex, writeEdge, writeThis, updateObjects, ret.
  cbn [vertexStore edgeStore nextRef this pathStore].
  rewrite Ho. cbn [vertexStore edgeStore nextRef this pathStore].
  rewrite lookup_alter_ne, lookup_insert_ne, Hsrc by lia.
  cbn [vertexStore edgeStore nextRef this pathStore].
  match goal with
  | |- context [match ?m !! PolygonEdge.target o with _ => _ end] =>
      assert (is_Some (m !! PolygonEdge.target o)) as [a2 Ha2]
  end.
  { rewrite lookup_alter_is_Some, lookup_alter_is_Some, lookup_insert_is_Some'.
    right. by eexists. }
  rewrite Ha2.
  cbn [vertexStore edgeStore nextRef this pathStore].
  rewrite (lookup_alter_ne _ _ (S (S nr)) edge), (lookup_alter_ne _ _ (S nr) edge),
    (lookup_insert_ne _ (S (S nr)) edge), (lookup_insert_ne _ (S nr) edge), Ho
    by lia.
  rewrite Hprev. cbn [vertexStore edgeStore nextRef this pathStore].
  subst newVertex newEdge1 newEdge2.
  change (alter (set_prevEdge (Some prev)) (S nr) _)
    with (relinked ES edge o nr (S nr) (S (S nr)) prev).
  fold es6.
  assert (es6 !! edge ≫= PolygonEdge.nextEdge = Some next') as Hread.
  { subst es6 next'. unfold relinked.
    rewrite (lookup_alter_ne _ _ (S nr)) by lia.
    destruct (decide (prev = edge)) as [->|Hpe];
      [rewrite lookup_alter_eq|rewrite lookup_alter_ne by done];
      rewrite (lookup_alter_ne _ _ (S (S nr)) edge), (lookup_alter_ne _ _ (S nr) edge),
        (lookup_insert_ne _ (S (S nr)) edge), (lookup_insert_ne _ (S nr) edge), Ho
        by lia; simpl; [done|by rewrite Hnext]. }
  destruct (es6 !! edge) as [o6|] eqn:Ho6; [|done]. cbn [mbind option_bind] in Hread.
  rewrite Hread. cbn [vertexStore edgeStore nextRef this pathStore].
  unfold writeThis. cbn [vertexStore edgeStore nextRef this pathStore].
  cbn [vertices edges doors _objects]. fold vs' es'.
  unfold reattached. cbv zeta.
  f_equal. f_equal. f_equal.
  rewrite (alter_ext (set_edges _) (replace_edge edge (S (S nr))) _ _)
    by (intros v Hv'; rewrite Hv' in Ha2; by injection Ha2 as ->).
  f_equal.
  apply alter_ext. intros v Hv'.
  rewrite lookup_alter_ne, lookup_insert_ne, Hsrc in Hv' by lia.
  by injection Hv' as <-.
Qed.

(** The links around an edge of a closed cycle. *)
Lemma closed_cycle_links (w : World num) (edge : ref) :
  closed_cycle w → edge ∈ edges (this w) →
  ∃ o prev next,
    edgeStore w !! edge = Some o
    ∧ PolygonEdge.prevEdge o = Some prev ∧ PolygonEdge.nextEdge o = Some next
    ∧ prev ∈ edges (this w) ∧ next ∈ edges (this w)
    ∧ nextEdge_of w prev = Some edge ∧ prevEdge_of w next = Some edge
    ∧ (prev = edge ↔ next = edge)
    ∧ (∀ r, r ∈ edges (this w) → nextEdge_of w r = Some edge → r = prev)
    ∧ (∀ r, r ∈ edges (this w) → is_Some (edgeStore w !! r)).
Proof.
  intros Hcyc%closed_cycle_cycle_on Hin.
  set (nx := nextEdge_of w) in *. set (pv := prevEdge_of w) in *.
  set (es := edges (this w)) in *.
  assert (∀ r, r ∈ es → is_Some (edgeStore w !! r)) as Hstored.
  { intros r Hr. destruct (cycle_on_nx _ _ _ Hcyc r Hr) as (r' & Hnx & _).
    subst nx. unfold nextEdge_of in Hnx. by destruct (edgeStore w !! r). }
  destruct (cycle_on_nx _ _ _ Hcyc edge Hin) as (next & Hnext & Hnext_in & Hpvn).
  pose proof Hcyc as [Hnd Hc]. destruct (Hc edge Hin) as (_ & Hback & _).
  assert (0 < length es) as Hpos
    by (destruct es; [by apply elem_of_nil in Hin|simpl; lia]).
  replace (length es) with ((length es - 1) + 1)%nat in Hback by lia.
  rewrite iter_nx_add in Hback.
  destruct (iter_nx_closed _ _ _ Hcyc (length es - 1)%nat edge Hin)
    as (prev & Hprev & Hprev_in).
  rewrite Hprev in Hback. cbn [mbind option_bind iter_nx] in Hback.
  destruct (cycle_on_nx _ _ _ Hcyc prev Hprev_in) as (e' & Hnxp & _ & Hpve).
  rewrite Hnxp in Hback. cbn [mbind option_bind] in Hback. simplify_eq.
  destruct (Hstored edge Hin) as [o Ho].
  exists o, prev, next. split_and!; try done.
  - subst pv. unfold prevEdge_of in Hpve. by rewrite Ho in Hpve.
  - subst nx. unfold nextEdge_of in Hnext. by rewrite Ho in Hnext.
  - split; intros ->; congruence.
  - intros r Hr Hnr. destruct (cycle_on_nx _ _ _ Hcyc r Hr) as (e' & He' & _ & Hb).
    congruence.
Qed.

Section Relinked2.
Variables (ES : gmap nat (PolygonEdge.t num)) (nr edge prev next : nat).
Variable o : PolygonEdge.t num.
Hypothesis Hbelow : ∀ r, is_Some (ES !! r) → r < nr.
Hypothesis Ho : ES !! edge = Some o.
Hypothesis Hprev_alloc : is_Some (ES !! prev).
Hypothesis Hnext_alloc : is_Some (ES !! next).

Let next' : nat := if decide (prev = edge) then S nr else next.

Let ES' : gmap nat (PolygonEdge.t num) :=
  alter (set_nextEdge (Some next')) (S (S nr))
    (alter (set_prevEdge (Some (S (S nr)))) next'
       (relinked ES edge o nr (S nr) (S (S nr)) prev)).

(** The two new edges, and every edge of the old store with its end
    points, are in the new store. *)
Lemma relinked_lookup :
  (∃ o1, ES' !! S nr = Some o1
         ∧ PolygonEdge.source o1 = PolygonEdge.source o
         ∧ PolygonEdge.target o1 = nr)
  ∧ (∃ o2, ES' !! S (S nr) = Some o2
           ∧ PolygonEdge.source o2 = nr
           ∧ PolygonEdge.target o2 = PolygonEdge.target o)
  ∧ (∀ r o0, ES !! r = Some o0 →
       ∃ o', ES' !! r = Some o'
             ∧ PolygonEdge.source o' = PolygonEdge.source o0
             ∧ PolygonEdge.target o' = PolygonEdge.target o0).
Proof using Hbelow Ho Hprev_alloc Hnext_alloc.
  pose proof (Hbelow edge ltac:(by eexists)) as Hlt.
  pose proof (Hbelow prev Hprev_alloc) as Hltp.
  pose proof (Hbelow next Hnext_alloc) as Hltn.
  split_and!.
  - subst ES' next'. unfold relinked. cbv zeta.
    rewrite ?lookup_alter, ?lookup_insert.
    repeat (case_decide; simplify_eq/=; try lia); eauto.
  - subst ES' next'. unfold relinked. cbv zeta.
    rewrite ?lookup_alter, ?lookup_insert.
    repeat (case_decide; simplify_eq/=; try lia); eauto.
  - intros r o0 Hr. pose proof (Hbelow r ltac:(by eexists)) as Hltr.
    subst ES' next'. unfold relinked. cbv zeta.
    rewrite ?lookup_alter, ?lookup_insert.
    repeat (case_decide; simplify_eq/=; try lia);
      repeat match goal with
             | H : ES !! ?r = Some _ |- context [ES !! ?r] => rewrite H
             end; simpl; eauto.
Qed.

(** The new edges inherit the stroke of the edge they replace. *)
Lemma relinked_stroke (r : nat) (o' : PolygonEdge.t num) :
  ES' !! r = Some o' → r = S nr ∨ r = S (S nr) →
  PolygonEdge.stroke o' = PolygonEdge.stroke o
  ∧ PolygonEdge.strokeWidth o' = PolygonEdge.strokeWidth o.
Proof using Hbelow Ho Hprev_alloc Hnext_alloc.
  pose proof (Hbelow edge ltac:(by eexists)) as Hlt.
  pose proof (Hbelow prev Hprev_alloc) as Hltp.
  pose proof (Hbelow next Hnext_alloc) as Hltn.
  intros Hr [->| ->]; revert Hr; subst ES' next'; unfold relinked; cbv zeta;
    rewrite ?lookup_alter, ?lookup_insert;
    repeat (case_decide; simplify_eq/=; try lia); by intros [= <-].
Qed.

End Relinked2.

(** The edge sequence after the splice. *)
Lemma splice_edge_elem (es : list ref) (edge n1 n2 e : ref) :
  NoDup es → edge ∈ es →
  e ∈ Array.splice es (Array.indexOf es edge) 1 [n1; n2]
  ↔ e = n1 ∨ e = n2 ∨ (e ∈ es ∧ e ≠ edge).
Proof.
  intros Hnd Hin.
  destruct (indexOf_spec edge es) as [[_ Hno]|(k & -> & Hlook & _)]; [done|].
  pose proof (lookup_lt_Some _ _ _ Hlook) as Hklt.
  rewrite splice_delete1 by done.
  pose proof (take_drop_middle _ _ _ Hlook) as Hes.
  set (l1 := take k es) in *. set (l2 := drop (S k) es) in *.
  clearbody l1 l2. subst es.
  apply NoDup_app in Hnd as (_ & Hdisj & Hnd').
  apply NoDup_cons in Hnd' as [Hnot _].
  rewrite !elem_of_app, !elem_of_cons, elem_of_nil.
  split.
  - intros [?|[[->|[->|[]]]|?]]; auto.
    + right; right. split; [auto|]. intros ->. eapply Hdisj; [done|set_solver].
    + right; right. split; [auto|]. by intros ->.
  - intros [->|[->|[[?|[->|?]] Hne]]]; auto.
    done.
Qed.


Section Reattached.
Variables (VS : gmap nat (PolygonVertex.t num)) (nr edge : nat).
Variable o : PolygonEdge.t num.
Variables left top : num.
Hypothesis Hedge : edge < nr.
Hypothesis Hsrc : PolygonEdge.source o < nr.
Hypothesis Htgt : PolygonEdge.target o < nr.

Let VS' : gmap nat (PolygonVertex.t num) :=
  reattached VS edge o nr (S nr) (S (S nr)) left top.


Lemma reattached_new :
  VS' !! nr = Some (PolygonVertex.mk left top [S nr; S (S nr)]).
Proof using Hedge Hsrc Htgt.
  subst VS'. unfold reattached. cbv zeta.
  rewrite !lookup_alter_ne by lia.
  by rewrite lookup_alter_eq, lookup_insert_eq.
Qed.



End Reattached.


End Polygon.

(** ** Doors, and the edge list after a split *)

Section Doors.
Context {num : Type} `{JSNumber num}.
Import CustomPolygon.

Lemma indexOf_snoc_fresh {A : Type} `{EqDecision A} (l : list A) (a : A) :
  a ∉ l → Array.indexOf (l ++ [a]) a = Z.of_nat (length l).
Proof.
  intros Hno.
  destruct (indexOf_spec a (l ++ [a])) as [[_ Habs]|(k & -> & Hk & Hfirst)].
  - exfalso. apply Habs. set_solver.
  - f_equal. apply lookup_snoc_Some in Hk as [[Hlt Hk]|[? _]]; [|done].
    exfalso. apply Hno. by eapply list_elem_of_lookup_2.
Qed.

(** X5: [removeDoor] undoes [addDoor] of a door that was not yet in the
    list: the door list is the old one again, the child list is rebuilt
    from the three lists, and a polygon whose child list was in step
    with them is back in its old state. *)
Theorem addDoor_removeDoor (w : World num) (door : ref) :
  door ∉ doors (this w) →
  ∃ w1 w2,
    addDoor door w = Returns (tt, w1)
    ∧ doors (this w1) = doors (this w) ++ [door]
    ∧ objects_synced (this w1)
    ∧ removeDoor door w1 = Returns (tt, w2)
    ∧ doors (this w2) = doors (this w)
    ∧ objects_synced (this w2)
    ∧ (objects_synced (this w) → w2 = w).
Proof.
  intros Hno. destruct w as [VS ES PS nr [vl el dl ol]].
  cbn [this doors] in Hno.
  unfold addDoor, removeDoor, bind, readThis, writeThis, updateObjects, ret.
  cbn [this vertices edges doors _objects vertexStore edgeStore pathStore nextRef].
  eexists _, _. split; [reflexivity|]. simpl.
  rewrite indexOf_snoc_fresh by done.
  destruct (Z.gtb_spec (Z.of_nat (length dl)) (-1)); [|lia]. simpl.
  rewrite splice_delete1 by (rewrite length_app; simpl; lia).
  rewrite take_app_length, drop_ge by (rewrite length_app; simpl; lia).
  cbn [app]. rewrite app_nil_r.
  destruct (Array.indexOf _ (OfPath door) >? -1)%Z; simpl;
    (split_and!; [done|done|reflexivity|done|done|]);
    unfold objects_synced; simpl; by intros ->.
Qed.

End Doors.

Section Split.
Context {num : Type} `{JSNumber num}.
Import CustomPolygon.
Local Open Scope js_scope.

Lemma splice_minus1 {A : Type} (l : list A) (a : A) (items : list A) :
  Array.splice (l ++ [a]) (-1) 1 items = l ++ items.
Proof.
  unfold Array.splice. rewrite length_app. cbn [length].
  change (-1 <? 0)%Z with true. cbv iota.
  rewrite Z.max_l by lia. rewrite (Z.max_l 1 0) by lia. rewrite Z.min_l by lia.
  replace (Z.to_nat (Z.of_nat (length l + 1) + -1)) with (length l) by lia.
  replace (Z.to_nat (Z.of_nat (length l + 1) + -1 + 1)) with (S (length l)) by lia.
  rewrite take_app_length, drop_ge by (rewrite length_app; simpl; lia).
  by rewrite app_nil_r.
Qed.

Lemma splice_insert_at {A : Type} (l : list A) (j : nat) (items : list A) :
  (j ≤ length l)%nat →
  Array.splice l (Z.of_nat j) 0 items = take j l ++ items ++ drop j l.
Proof.
  intros Hj. unfold Array.splice.
  destruct (Z.ltb_spec (Z.of_nat j) 0); [lia|].
  rewrite Z.min_l by lia. rewrite (Z.max_l 0 0) by lia.
  rewrite Z.min_l by lia. by rewrite Z.add_0_r, Nat2Z.id.
Qed.

(** X9: [addVertexOnEdge] does not check that the edge belongs to the
    polygon.  For a linked edge that is not in the edge list, [indexOf]
    gives [-1], and [splice(-1, 1, ...)] replaces the last edge of the
    list by the two new ones. *)
Theorem addVertexOnEdge_foreign_edge (w : World num) (edge : ref)
    (point : Point num) (o : PolygonEdge.t num) (prev next : ref)
    (es0 : list ref) (last : ref) :
  allocated w →
  edgeStore w !! edge = Some o →
  PolygonEdge.prevEdge o = Some prev → PolygonEdge.nextEdge o = Some next →
  edge ∉ edges (this w) →
  edges (this w) = es0 ++ [last] →
  ∃ w', addVertexOnEdge edge point w = Returns (tt, w')
        ∧ edges (this w')
          = es0 ++ [S (nextRef w); S (S (nextRef w))]
        ∧ length (edges (this w')) = S (length (edges (this w))).
Proof.
  intros Halloc Ho Hpv Hnx Hno Hes.
  eexists. split; [by apply (addVertexOnEdge_result w edge point o prev next)|].
  cbn [this edges].
  destruct (indexOf_spec edge (edges (this w))) as [[-> _]|(k & _ & Hk & _)].
  - rewrite Hes, splice_minus1. split; [done|].
    rewrite !length_app. simpl. lia.
  - exfalso. apply Hno. by eapply list_elem_of_lookup_2.
Qed.

(** X6: [addVertexOnEdge] on the edge at position [k] of a closed cycle
    returns; the two new edges take the place of the old one in the edge
    list, the first from the old source to the new vertex and the second
    from the new vertex to the old target, both with the stroke of the
    old edge; the new vertex lies at [point - 6], carries the two new
    edges, and is inserted before the old target; doors are untouched
    and the old edge is no longer a child. *)
Theorem addVertexOnEdge_splits_edge (w : World num) (edge : ref)
    (point : Point num) (k : nat) :
  allocated w → closed_cycle w →
  edges (this w) !! k = Some edge →
  let newVertex := nextRef w in
  let newEdge1 := S (nextRef w) in
  let newEdge2 := S (S (nextRef w)) in
  ∃ w' o o1 o2,
    addVertexOnEdge edge point w = Returns (tt, w')
    ∧ edgeStore w !! edge = Some o
    ∧ edges (this w')
      = take k (edges (this w)) ++ [newEdge1; newEdge2]
          ++ drop (S k) (edges (this w))
    ∧ edgeStore w' !! newEdge1 = Some o1
    ∧ PolygonEdge.source o1 = PolygonEdge.source o
    ∧ PolygonEdge.target o1 = newVertex
    ∧ PolygonEdge.stroke o1 = PolygonEdge.stroke o
    ∧ PolygonEdge.strokeWidth o1 = PolygonEdge.strokeWidth o
    ∧ edgeStore w' !! newEdge2 = Some o2
    ∧ PolygonEdge.source o2 = newVertex
    ∧ PolygonEdge.target o2 = PolygonEdge.target o
    ∧ PolygonEdge.stroke o2 = PolygonEdge.stroke o
    ∧ PolygonEdge.strokeWidth o2 = PolygonEdge.strokeWidth o
    ∧ vertexStore w' !! newVertex
      = Some (PolygonVertex.mk (x point - lit 6) (y point - lit 6)
                [newEdge1; newEdge2])
    ∧ (∀ j : nat, vertices (this w) !! j = Some (PolygonEdge.target o) →
         PolygonEdge.target o ∉ take j (vertices (this w)) →
         vertices (this w')
         = take j (vertices (this w)) ++ [newVertex]
             ++ drop j (vertices (this w)))
    ∧ doors (this w') = doors (this w)
    ∧ pathStore w' = pathStore w
    ∧ objects_synced (this w')
    ∧ OfEdge edge ∉ _objects (this w').
Proof.
  intros Halloc Hcyc Hk newVertex newEdge1 newEdge2.
  assert (edge ∈ edges (this w)) as Hin by by eapply list_elem_of_lookup_2.
  destruct (closed_cycle_links w edge Hcyc Hin)
    as (o & prev & next & Ho & Hpv & Hnx & Hprev_in & Hnext_in & Hnp & Hpn
        & Hself & Huniq & Hstored).
  pose proof Hcyc as [Hnd _].
  pose proof Halloc as (Hvbelow & Hbelow & Hends).
  destruct (relinked_lookup (edgeStore w) (nextRef w) edge prev next o
              Hbelow Ho (Hstored _ Hprev_in) (Hstored _ Hnext_in))
    as ((o1 & Ho1 & Hs1 & Ht1) & (o2 & Ho2 & Hs2 & Ht2) & Fold).
  pose proof (relinked_stroke (edgeStore w) (nextRef w) edge prev next o
                Hbelow Ho (Hstored _ Hprev_in) (Hstored _ Hnext_in)) as Fstroke.
  pose proof (Hbelow edge ltac:(by eexists)) as Hlte.
  destruct (Hends _ _ Ho) as [Hsrc_s Htgt_s].
  pose proof (Hvbelow _ Hsrc_s) as Hlts. pose proof (Hvbelow _ Htgt_s) as Hltt.
  pose proof (reattached_new (vertexStore w) (nextRef w) edge o
                (x point - lit 6) (y point - lit 6) Hlte Hlts Hltt) as Vnew.
  eexists _, o, o1, o2.
  split; [by apply (addVertexOnEdge_result w edge point o prev next)|].
  cbn [this edges vertices doors _objects edgeStore vertexStore pathStore].
  assert (Array.indexOf (edges (this w)) edge = Z.of_nat k) as Hidx.
  { destruct (indexOf_spec edge (edges (this w))) as [[_ ?]|(k' & -> & Hk' & _)];
      [done|]. f_equal. by eapply NoDup_lookup. }
  pose proof (lookup_lt_Some _ _ _ Hk) as Hklt.
  split_and!; try done.
  - by rewrite Hidx, splice_delete1.
  - by apply (Fstroke _ _ Ho1); left.
  - by apply (Fstroke _ _ Ho1); left.
  - by apply (Fstroke _ _ Ho2); right.
  - by apply (Fstroke _ _ Ho2); right.
  - intros j Hj Hfirst.
    destruct (indexOf_spec (PolygonEdge.target o) (vertices (this w)))
      as [[_ Hno]|(j' & -> & Hj' & Hfirst')].
    { exfalso. apply Hno. by eapply list_elem_of_lookup_2. }
    assert (j' = j) as ->.
    { destruct (Nat.lt_total j' j) as [?|[?|?]]; [exfalso|done|exfalso].
      - apply Hfirst. apply (list_elem_of_lookup_2 _ j').
        rewrite lookup_take_lt by lia. done.
      - apply Hfirst'. apply (list_elem_of_lookup_2 _ j).
        rewrite lookup_take_lt by lia. done. }
    apply splice_insert_at. apply lookup_lt_Some in Hj. lia.
  - rewrite !elem_of_app, !list_elem_of_fmap.
    intros [(? & [=] & _)|[(e & [= <-] & He)|(? & [=] & _)]].
    apply splice_edge_elem in He as [?|[?|[_ ?]]]; [lia|lia|done|done|done].
Qed.

End Split.

(** ** The door tool over a sequence of events *)

Section SessionFacts.
Context {num : Type} `{JSNumber num}.
Variable edges : list (Line num).
Variables toLocalPoint toGlobalPoint : Point num → Point num.

Lemma canvas_remove_absent (o : option ref) (l : list ref) :
  (∀ r, o = Some r → r ∉ l) → canvas_remove o l = l.
Proof.
  destruct o as [r|]; [|done]. intros Hno. specialize (Hno r eq_refl).
  cbn [canvas_remove]. induction l as [|a l IH]; [done|].
  apply not_elem_of_cons in Hno as [Hne Hno].
  rewrite filter_cons_True by done. by rewrite IH.
Qed.

Lemma canvas_remove_idemp (o : option ref) (l : list ref) :
  canvas_remove o (canvas_remove o l) = canvas_remove o l.
Proof.
  apply canvas_remove_absent. intros r ->. cbn [canvas_remove].
  rewrite list_elem_of_filter. naive_solver.
Qed.

Lemma canvas_remove_comm (o o' : option ref) (l : list ref) :
  canvas_remove o (canvas_remove o' l) = canvas_remove o' (canvas_remove o l).
Proof.
  destruct o as [r|], o' as [r'|]; cbn [canvas_remove]; try done.
  rewrite !list_filter_filter. apply list_filter_iff. naive_solver.
Qed.

Lemma canvas_remove_twice (pp pc : option ref) (l : list ref) :
  canvas_remove pc (canvas_remove pp (canvas_remove pc (canvas_remove pp l)))
  = canvas_remove pc (canvas_remove pp l).
Proof.
  rewrite (canvas_remove_comm pp pc (canvas_remove pp l)).
  by rewrite !canvas_remove_idemp.
Qed.

Lemma canvas_remove_snoc (r : ref) (l : list ref) :
  canvas_remove (Some r) (l ++ [r]) = canvas_remove (Some r) l.
Proof.
  cbn [canvas_remove]. rewrite filter_app.
  rewrite (filter_cons_False _ r) by naive_solver.
  by rewrite filter_nil, app_nil_r.
Qed.

Lemma canvas_remove_snoc_ne (o : option ref) (r : ref) (l : list ref) :
  o ≠ Some r → canvas_remove o (l ++ [r]) = canvas_remove o l ++ [r].
Proof.
  destruct o as [r'|]; [|done]. intros Hne. cbn [canvas_remove].
  rewrite filter_app. rewrite (filter_cons_True _ r) by naive_solver.
  by rewrite filter_nil.
Qed.

Section Step.
Variables (base : list ref) (w0 : CustomPolygon.World num).

Lemma base_clean (o : option ref) :
  Forall (λ o, o < CustomPolygon.nextRef w0) base →
  (∀ r, o = Some r → CustomPolygon.nextRef w0 ≤ r) → canvas_remove o base = base.
Proof.
  intros Hbase Ho. apply canvas_remove_absent. intros r Hr Hin.
  rewrite Forall_forall in Hbase. specialize (Hbase r Hin).
  specialize (Ho r Hr). lia.
Qed.

Lemma base_previews (pp pc : option ref) (objs : list ref) (c : ref) :
  Forall (λ o, o < CustomPolygon.nextRef w0) base →
  canvas_remove pc (canvas_remove pp objs) = base →
  (∀ r, pp = Some r → CustomPolygon.nextRef w0 ≤ r < c) →
  CustomPolygon.nextRef w0 ≤ c →
  canvas_remove (Some c)
    (canvas_remove pp (canvas_remove pc (canvas_remove pp objs) ++ [c])) = base.
Proof.
  intros Hbase Hobjs Hpp Hc. rewrite Hobjs.
  rewrite canvas_remove_snoc_ne
    by (intros ->; specialize (Hpp c eq_refl); lia).
  rewrite base_clean; [|done|intros r Hr; specialize (Hpp r Hr); lia].
  rewrite canvas_remove_snoc. apply base_clean; [done|]. by intros r [= <-].
Qed.

Local Ltac simpl_session :=
  cbn [tool polygon circleStore isDrawing startPoint previewPath previewPoint
       canvasObjects onMouseMove onMouseDown CustomPolygon.nextRef
       CustomPolygon.vertexStore CustomPolygon.edgeStore CustomPolygon.this
       CustomPolygon.pathStore CustomPolygon.doors CustomPolygon.vertices
       CustomPolygon.edges CustomPolygon._objects].

Lemma fire_inv (ev : MouseEvent) (s : Session) :
  session_inv base w0 s →
  ∃ s', fire edges toLocalPoint toGlobalPoint ev s = Returns s'
        ∧ session_inv base w0 s'.
Proof.
  destruct s as [[dr sp pp pc objs omm omd] w cs].
  unfold session_inv. simpl_session.
  intros (Hsp & Hn & Hpp & Hpc & Hobjs & HVS & HES & Hvs & Hes & Hdoors).
  destruct ev as [pointer|pointer]; cbn [fire tool onMouseMove onMouseDown].
  - (* mouse:move *)
    destruct omm; [|eexists; split; [reflexivity|]; by split_and!].
    unfold handleMouseMove. simpl_session.
    destruct (findClosestEdgePoint _ _ _) as [[result_point k]|].
    + unfold createPreviewPoint. simpl_session.
      assert (∀ s', s' = mkSession
                 (mkTool dr sp pp (Some (CustomPolygon.nextRef w))
                    (canvas_add (CustomPolygon.nextRef w)
                       (canvas_remove pc (canvas_remove pp objs))) true omd)
                 (CustomPolygon.mkWorld (CustomPolygon.vertexStore w)
                    (CustomPolygon.edgeStore w) (CustomPolygon.pathStore w)
                    (S (CustomPolygon.nextRef w)) (CustomPolygon.this w))
                 (<[CustomPolygon.nextRef w :=
                      mkCircle (x (toGlobalPoint result_point) - lit 5)%js
                        (y (toGlobalPoint result_point) - lit 5)%js (lit 5)]> cs) →
              session_inv base w0 s') as Hplain.
      { intros s' ->. unfold session_inv. simpl_session.
        split_and!; try done; try lia.
        - intros p Hp. specialize (Hpp p Hp). lia.
        - intros c [= <-]. lia.
        - intros Hbase. by eapply base_previews; auto. }
      destruct dr; [|eexists; split; [reflexivity|]; by apply Hplain].
      destruct sp as [start|]; [|eexists; split; [reflexivity|]; by apply Hplain].
      unfold updatePreviewLine.
      destruct (findPathBetweenPoints_returns edges start result_point)
        as [path ->].
      simpl_session.
      destruct (length path <? 2)%nat.
      * eexists. split; [reflexivity|]. unfold session_inv. simpl_session.
        split_and!; try done; try lia.
        -- intros c [= <-]. lia.
        -- intros Hbase. cbn [canvas_remove]. by eapply base_previews; auto.
      * unfold CustomPolygon.new_Path. simpl_session.
        eexists. split; [reflexivity|]. unfold session_inv. simpl_session.
        split_and!; try done; try lia.
        -- intros p [= <-]. lia.
        -- intros c [= <-]. lia.
        -- intros Hbase. unfold canvas_add. rewrite canvas_remove_snoc.
           rewrite canvas_remove_comm.
           rewrite (base_previews pp pc objs _ Hbase (Hobjs Hbase)); [| |lia].
           ++ apply base_clean; [done|]. intros r [= <-]. lia.
           ++ intros r Hr. specialize (Hpp r Hr). lia.
        -- destruct Hdoors as [(_ & ? & ?)|(? & _)]; [|done]. left. done.
    + eexists. split; [reflexivity|]. unfold session_inv. simpl_session.
      split_and!; try done.
      intros Hbase. rewrite canvas_remove_twice. auto.
  - (* mouse:down *)
    destruct omd; [|eexists; split; [reflexivity|]; by split_and!].
    destruct Hdoors as [(-> & _ & Hdoors)|(_ & ? & _)]; [|done].
    unfold handleMouseDown.
    destruct (findClosestEdgePoint _ _ _) as [[result_point k]|];
      [|eexists; split; [reflexivity|]; split_and!; try done; by left].
    simpl_session.
    destruct dr; cbn [negb].
    + destruct Hsp as [start ->]; [done|].
      destruct (findPathBetweenPoints_returns edges start result_point)
        as [path ->].
      destruct (Nat.ltb_spec (length path) 2).
      * eexists. split; [reflexivity|]. unfold session_inv. simpl_session.
        split_and!; try done. by left.
      * unfold CustomPolygon.bind, CustomPolygon.new_Path, CustomPolygon.addDoor,
          CustomPolygon.bind, CustomPolygon.writeThis,
          CustomPolygon.updateObjects. unfold CustomPolygon.writeThis.
        simpl_session.
        eexists. split; [reflexivity|]. unfold session_inv, cleanup.
        simpl_session.
        split_and!; try done; try lia.
        -- intros p Hp. specialize (Hpp p Hp). lia.
        -- intros c Hc. specialize (Hpc c Hc). lia.
        -- intros Hbase. rewrite canvas_remove_twice. auto.
        -- right. split_and!; try done.
           exists (CustomPolygon.nextRef w), path.
           rewrite Hdoors, lookup_insert_eq. done.
    + eexists. split; [reflexivity|]. unfold session_inv. simpl_session.
      split_and!; try done. by left.
Qed.

Lemma fire_all_inv (evs : list MouseEvent) : ∀ s,
  session_inv base w0 s →
  ∃ s', fire_all edges toLocalPoint toGlobalPoint evs s = Returns s'
        ∧ session_inv base w0 s'.
Proof.
  induction evs as [|ev evs IH]; intros s Hinv; cbn [fire_all].
  - by exists s.
  - destruct (fire_inv ev s Hinv) as (s1 & -> & Hinv1). by apply IH.
Qed.

Lemma action_inv : session_inv base w0 (action base w0).
Proof.
  unfold session_inv, action.
  cbn [tool polygon isDrawing startPoint previewPath previewPoint
       canvasObjects onMouseMove onMouseDown canvas_remove].
  split_and!; try done. by left.
Qed.

End Step.

End SessionFacts.

Section SessionTheorems.
Context {num : Type} `{JSNumber num}.
Variable edges : list (Line num).
Variables toLocalPoint toGlobalPoint : Point num → Point num.

(** X1: whatever mouse events reach the door tool after [action], no
    handler throws, the vertices and edges of the polygon are left as
    they were, and either no door was added and both handlers are still
    subscribed, or exactly one door was added, a newly made path of at
    least two points, and both handlers are unsubscribed. *)
Theorem door_tool_adds_at_most_one_door (evs : list MouseEvent)
    (canvasObjects0 : list ref) (w : CustomPolygon.World num) :
  ∃ s', fire_all edges toLocalPoint toGlobalPoint evs (action canvasObjects0 w)
        = Returns s'
    ∧ CustomPolygon.vertexStore (polygon s') = CustomPolygon.vertexStore w
    ∧ CustomPolygon.edgeStore (polygon s') = CustomPolygon.edgeStore w
    ∧ CustomPolygon.vertices (CustomPolygon.this (polygon s'))
      = CustomPolygon.vertices (CustomPolygon.this w)
    ∧ CustomPolygon.edges (CustomPolygon.this (polygon s'))
      = CustomPolygon.edges (CustomPolygon.this w)
    ∧ ((onMouseMove (tool s') = true ∧ onMouseDown (tool s') = true
        ∧ CustomPolygon.doors (CustomPolygon.this (polygon s'))
          = CustomPolygon.doors (CustomPolygon.this w))
       ∨ (onMouseMove (tool s') = false ∧ onMouseDown (tool s') = false
          ∧ ∃ door path,
              CustomPolygon.doors (CustomPolygon.this (polygon s'))
              = CustomPolygon.doors (CustomPolygon.this w) ++ [door]
              ∧ CustomPolygon.nextRef w ≤ door
              ∧ CustomPolygon.pathStore (polygon s') !! door = Some path
              ∧ 2 ≤ length path)).
Proof.
  destruct (fire_all_inv edges toLocalPoint toGlobalPoint canvasObjects0 w evs
              _ (action_inv canvasObjects0 w))
    as (s' & Hrun & _ & _ & _ & _ & _ & HVS & HES & Hvs & Hes & Hdoors).
  by exists s'.
Qed.

(** X2: whatever mouse events reach the door tool after [action], the
    [cleanup] that [action] returned leaves on the canvas exactly the
    objects that were there before, with both handlers unsubscribed;
    calling it again changes nothing. *)
Theorem door_tool_restores_canvas (evs : list MouseEvent)
    (canvasObjects0 : list ref) (w : CustomPolygon.World num) :
  Forall (λ o, o < CustomPolygon.nextRef w) canvasObjects0 →
  ∃ s', fire_all edges toLocalPoint toGlobalPoint evs (action canvasObjects0 w)
        = Returns s'
    ∧ canvasObjects (cleanup (tool s')) = canvasObjects0
    ∧ onMouseMove (cleanup (tool s')) = false
    ∧ onMouseDown (cleanup (tool s')) = false
    ∧ cleanup (cleanup (tool s')) = cleanup (tool s').
Proof.
  intros Hbase.
  destruct (fire_all_inv edges toLocalPoint toGlobalPoint canvasObjects0 w evs
              _ (action_inv canvasObjects0 w))
    as (s' & Hrun & _ & _ & _ & _ & Hobjs & _).
  exists s'. split; [done|]. unfold cleanup.
  cbn [canvasObjects onMouseMove onMouseDown previewPath previewPoint
       isDrawing startPoint].
  split_and!; [auto|done|done|]. by rewrite canvas_remove_twice.
Qed.

End SessionTheorems.

(** ** The hit test of [ConnectionLine] *)

Section FloatHit.
Local Open Scope float_scope.

Lemma sub_eqb_finite_zero_l (a b : float) :
  (a =? b) = true → is_finite a = true →
  ∃ s, Prim2SF (a - b) = S754_zero s.
Proof.
  unfold is_finite, is_nan, is_infinity.
  rewrite !FloatAxioms.eqb_spec, abs_spec, FloatAxioms.sub_spec.
  change (Prim2SF infinity) with (S754_infinity false).
  unfold SFeqb, SFcompare, SF64sub, SFsub.
  destruct (Prim2SF a) as [[]|[]| |[] ma ea], (Prim2SF b) as [[]|[]| |[] mb eb];
    simpl; try done; eauto.
  all: destruct (Z.compare_spec ea eb) as [->| |]; try done.
  all: change (Pos.compare_cont Eq ma mb) with (Pos.compare ma mb).
  all: destruct (Pos.compare_spec ma mb) as [->| |]; try done.
  all: rewrite Z.sub_diag; eauto.
Qed.

Lemma sqrt_zero_lengthSq (a b : float) :
  (∃ s, Prim2SF a = S754_zero s) → (∃ s, Prim2SF b = S754_zero s) →
  (PrimFloat.sqrt (a * a + b * b) =? 0) = true.
Proof.
  intros [sa Ha] [sb Hb].
  rewrite FloatAxioms.eqb_spec, FloatAxioms.sqrt_spec, FloatAxioms.add_spec,
    !FloatAxioms.mul_spec, Ha, Hb.
  by destruct sa, sb.
Qed.

(** X10: on a line whose two ends coincide, [distanceFromPointToLine]
    is the distance to that point, and [containsPoint] holds exactly of
    the points within [hitboxPadding] of it. *)
Theorem distanceFromPointToLine_zero_length (P A B : Point float) :
  (x A =? x B) = true → (y A =? y B) = true →
  is_finite (x A) = true → is_finite (y A) = true →
  ConnectionLine.distanceFromPointToLine P A B = distanceFrom P A
  ∧ ConnectionLine.containsPoint (mkLine (x A) (y A) (x B) (y B)) P
    = (distanceFrom P A <=? 5).
Proof.
  intros Hx Hy Hfx Hfy.
  assert (ConnectionLine.distanceFromPointToLine P A B = distanceFrom P A) as Heq.
  { unfold ConnectionLine.distanceFromPointToLine.
    assert ((distanceFrom A B === lit 0)%js = true) as ->; [|done].
    unfold distanceFrom.
    cbn [num_eq float_JSNumberOps num_add num_sub num_mul Math_sqrt lit
         float_JSNumber].
    apply sqrt_zero_lengthSq; by apply sub_eqb_finite_zero_l. }
  split; [done|].
  unfold ConnectionLine.containsPoint. cbn [x1 y1 x2 y2].
  assert (∀ p : Point float, mkPoint (x p) (y p) = p) as Heta by by intros [].
  by rewrite !Heta, Heq.
Qed.

End FloatHit.

(** ** The shape tools under [initializeDrawingTool] *)

Section Dispatch.
Context {num T : Type}.
Variable tool : utils.DrawingTool num T.

Lemma with_toolState_fields (h h' : utils.Handlers num T) r :
  utils.with_toolState h r = Returns h' →
  utils.isDrawing h' = utils.isDrawing h
  ∧ utils.startPoint h' = utils.startPoint h
  ∧ utils.currentShape h' = utils.currentShape h
  ∧ utils.isDragging h' = utils.isDragging h
  ∧ utils.addObject_calls h' = utils.addObject_calls h
  ∧ utils.setCurrentTool_calls h' = utils.setCurrentTool_calls h.
Proof. destruct r; [|done|done]. by intros [= <-]. Qed.

Lemma fire_addObject (ev : utils.CanvasEvent num) (h h' : utils.Handlers num T) :
  utils.fire tool ev h = Returns h' →
  utils.currentShape h = None → utils.addObject_calls h = [] →
  utils.currentShape h' = None ∧ utils.addObject_calls h' = [].
Proof.
  intros Hfire Hcs Hcalls. destruct ev as [o|o|o]; cbn [utils.fire] in Hfire.
  - unfold utils.on_mouse_down in Hfire.
    destruct (negb (utils.e o)); [by injection Hfire as <-|].
    destruct (utils.target o); [by injection Hfire as <-|].
    apply with_toolState_fields in Hfire as (_ & _ & -> & _ & -> & _). done.
  - unfold utils.on_mouse_move in Hfire.
    destruct (_ || _); [by injection Hfire as <-|].
    apply with_toolState_fields in Hfire as (_ & _ & -> & _ & -> & _). done.
  - unfold utils.on_mouse_up in Hfire.
    destruct (utils.isDragging h); [by injection Hfire as <-|].
    destruct (negb (utils.isDrawing h)); [by injection Hfire as <-|].
    cbn [utils.startPoint utils.toolState] in Hfire.
    match type of Hfire with
    | match ?m with _ => _ end = _ => destruct m as [h1| |] eqn:Hup; [|done|done]
    end.
    assert (utils.currentShape h1 = None ∧ utils.addObject_calls h1 = [])
      as [Hcs1 Hcalls1].
    { destruct (utils.startPoint h), (utils.e o);
        try (by injection Hup as <-).
      apply with_toolState_fields in Hup as (_ & _ & -> & _ & -> & _). done. }
    rewrite Hcs1 in Hfire. by injection Hfire as <-.
Qed.

(** X11: the handlers that [initializeDrawingTool] subscribes never
    call [addObject]: [context.currentShape] is not set by
    [createDrawingContext], and no handler assigns it. *)
Theorem initializeDrawingTool_never_adds_object
    (evs : list (utils.CanvasEvent num)) (st : T) (h0 h : utils.Handlers num T) :
  utils.initializeDrawingTool tool st = Returns h0 →
  utils.fire_all tool evs h0 = Returns h →
  utils.addObject_calls h = [] ∧ utils.currentShape h = None.
Proof.
  intros Hinit Hrun.
  assert (utils.currentShape h0 = None ∧ utils.addObject_calls h0 = [])
    as [Hcs Hcalls].
  { unfold utils.initializeDrawingTool in Hinit.
    destruct (utils.call_optional _ _); [|done|done]. by injection Hinit as <-. }
  clear Hinit. revert h0 Hrun Hcs Hcalls.
  induction evs as [|ev evs IH]; intros h0 Hrun Hcs Hcalls; cbn [utils.fire_all] in Hrun.
  - by injection Hrun as <-.
  - destruct (utils.fire tool ev h0) as [h1| |] eqn:Hfire; [|done|done].
    destruct (fire_addObject _ _ _ Hfire Hcs Hcalls). by eapply IH.
Qed.

End Dispatch.

Section Click.
Context {num : Type} `{JSNumber num} `{JSNumberOps num}.

(** X13: a click of the triangle tool on an empty spot, without any
    move in between, leaves a triangle of width and height [0] on the
    canvas, as its active object. *)
Theorem drawTriangle_click (canvas0 : Canvas.t num) (down up : Point num) :
  let idle := drawTriangle.mkState None None canvas0 in
  let shape := Canvas.nextRef canvas0 in
  ∃ h0 h,
    utils.initializeDrawingTool drawTriangle_tool idle = Returns h0
    ∧ utils.fire_all drawTriangle_tool
        [utils.mouse_down (utils.mkOptions true false down);
         utils.mouse_up (utils.mkOptions true false up)] h0 = Returns h
    ∧ Canvas.objects (drawTriangle.canvas (utils.toolState h))
      = Canvas.objects canvas0 ++ [shape]
    ∧ Canvas.activeObject (drawTriangle.canvas (utils.toolState h)) = Some shape
    ∧ Canvas.shapes (drawTriangle.canvas (utils.toolState h)) !! shape
      = Some (Canvas.mkShape (x down) (y down) (lit 0) (lit 0))
    ∧ utils.setCurrentTool_calls h = [None].
Proof.
  intros idle shape. eexists _, _. split; [reflexivity|].
  cbn. split; [reflexivity|]. cbn. split_and!; try done.
  by rewrite lookup_insert_eq.
Qed.

End Click.

(** X12: a click of the rectangle tool on an empty spot, without any
    move in between, leaves the canvas objects and the active object as
    they were: the zero-size rectangle is removed again.  The tool is
    reset through [setCurrentTool(null)]. *)
Theorem drawRectangle_click (canvas0 : Canvas.t float) (down up : Point float) :
  Forall (λ o, o < Canvas.nextRef canvas0) (Canvas.objects canvas0) →
  let idle := drawRectangle.mkState None None false canvas0 in
  ∃ h0 h,
    utils.initializeDrawingTool drawRectangle_tool idle = Returns h0
    ∧ utils.fire_all drawRectangle_tool
        [utils.mouse_down (utils.mkOptions true false down);
         utils.mouse_up (utils.mkOptions true false up)] h0 = Returns h
    ∧ Canvas.objects (drawRectangle.canvas (utils.toolState h))
      = Canvas.objects canvas0
    ∧ Canvas.activeObject (drawRectangle.canvas (utils.toolState h))
      = Canvas.activeObject canvas0
    ∧ drawRectangle.activeShape (utils.toolState h) = None
    ∧ drawRectangle.isDrawing (utils.toolState h) = false
    ∧ utils.setCurrentTool_calls h = [None].
Proof.
  intros Hfresh idle. eexists _, _. split; [reflexivity|].
  cbn. rewrite lookup_insert_eq. cbn -[canvas_remove].
  split; [reflexivity|]. cbn -[canvas_remove].
  split_and!; try done.
  rewrite canvas_remove_snoc. apply canvas_remove_absent.
  intros r [= <-] Hin. rewrite Forall_forall in Hfresh.
  specialize (Hfresh _ Hin). lia.
Qed.

(** ** The example polygons *)




Lemma stale_world_allocated : allocated stale_world.
Proof. exact square_world_allocated. Qed.

(** ** Instances on the example polygons *)





Lemma findPathBetweenPoints_two_ways_witness :
  ∃ vs vs',
    findPathBetweenPoints (square 100) (pt 50 0) (pt 50 100)
    = Returns (pt 50 0 :: vs ++ [pt 50 100])
    ∧ findPathBetweenPoints (square 100) (pt 50 100) (pt 50 0)
      = Returns (pt 50 100 :: vs' ++ [pt 50 0])
    ∧ length vs + length vs' = 4.
Proof.
  destruct (findPathBetweenPoints_two_ways (square 100) (pt 50 0) (pt 50 100))
    as (vs & vs' & H1 & H2 & Hlen & _).
  - vm_compute. discriminate.
  - vm_compute. discriminate.
  - vm_compute. discriminate.
  - exists vs, vs'. split_and!; [exact H1|exact H2|exact Hlen].
Defined.

Lemma door_tool_restores_canvas_witness :
  ∃ s',
    fire_all (square 100) (λ p, p) (λ p, p)
      [MouseMove (pt 50 3); MouseDown (pt 50 3); MouseMove (pt 50 97)]
      (action [0; 1; 2] square_world) = Returns s'
    ∧ canvasObjects (cleanup (tool s')) = [0; 1; 2].
Proof.
  destruct (door_tool_restores_canvas (square 100) (λ p, p) (λ p, p)
              [MouseMove (pt 50 3); MouseDown (pt 50 3); MouseMove (pt 50 97)]
              [0; 1; 2] square_world)
    as (s' & Hrun & Hobjs & _).
  - repeat constructor; cbn; lia.
  - exists s'. split; [exact Hrun|exact Hobjs].
Defined.

Lemma addDoor_removeDoor_witness :
  ∃ w1 w2,
    CustomPolygon.addDoor 9 square_world = Returns (tt, w1)
    ∧ CustomPolygon.removeDoor 9 w1 = Returns (tt, w2)
    ∧ w2 = square_world.
Proof.
  destruct (addDoor_removeDoor square_world 9)
    as (w1 & w2 & Hadd & _ & _ & Hrem & _ & _ & Hsame).
  - set_solver.
  - exists w1, w2. split_and!; [exact Hadd|exact Hrem|].
    apply Hsame. reflexivity.
Defined.

Lemma addVertexOnEdge_splits_edge_witness :
  ∃ w',
    CustomPolygon.addVertexOnEdge 5 (pt 100 50) square_world = Returns (tt, w')
    ∧ CustomPolygon.edges (CustomPolygon.this w') = [4; 10; 11; 6; 7]
    ∧ CustomPolygon.vertices (CustomPolygon.this w') = [0; 1; 9; 2; 3].
Proof.
  destruct (addVertexOnEdge_splits_edge square_world 5 (pt 100 50) 1
              square_world_allocated square_world_closed_cycle)
    as (w' & o & o1 & o2 & Hrun & Ho & Hes & _ & _ & _ & _ & _ & _ & _ & _ & _
        & _ & _ & Hvs & _).
  - reflexivity.
  - exists w'. split_and!; [exact Hrun|exact Hes|].
    assert (Some o = Some (PolygonEdge.mk 1 2 (Some 4) (Some 6) "black" (float_lit 2)))
      as [= ->] by (rewrite <- Ho; reflexivity).
    apply (Hvs 2); [reflexivity|].
    cbn [PolygonEdge.target]. intros Hin. repeat (apply elem_of_cons in Hin as [Heq|Hin]; [discriminate|]).
    by apply elem_of_nil in Hin.
Defined.



Lemma addVertexOnEdge_foreign_edge_witness :
  ∃ w',
    CustomPolygon.addVertexOnEdge 7 (pt 0 50) stale_world = Returns (tt, w')
    ∧ CustomPolygon.edges (CustomPolygon.this w') = [4; 5; 10; 11].
Proof.
  destruct (addVertexOnEdge_foreign_edge stale_world 7 (pt 0 50)
              (PolygonEdge.mk 3 0 (Some 6) (Some 4) "black" (float_lit 2))
              6 4 [4; 5] 6 stale_world_allocated)
    as (w' & Hrun & Hes & _).
  - vm_compute. reflexivity.
  - reflexivity.
  - reflexivity.
  - cbn. set_solver.
  - reflexivity.
  - exists w'. split; [exact Hrun|exact Hes].
Defined.


Lemma distanceFromPointToLine_zero_length_witness :
  ConnectionLine.distanceFromPointToLine (pt 3 4) (pt 0 0) (pt 0 0)
  = distanceFrom (pt 3 4) (pt 0 0).
Proof.
  apply (distanceFromPointToLine_zero_length (pt 3 4) (pt 0 0) (pt 0 0));
    vm_compute; reflexivity.
Defined.

Lemma initializeDrawingTool_never_adds_object_witness :
  ∃ h,
    utils.fire_all drawRectangle_tool
      [utils.mouse_down (utils.mkOptions true false (pt 1 1));
       utils.mouse_move (utils.mkOptions true false (pt 4 5));
       utils.mouse_up (utils.mkOptions true false (pt 4 5))]
      (utils.mkHandlers false None None false
         (drawRectangle.mkState None None false (Canvas.mk [] None ∅ 0)) [] [])
    = Returns h
    ∧ utils.addObject_calls h = [].
Proof.
  eexists. split; [vm_compute; reflexivity|].
  refine (proj1 (initializeDrawingTool_never_adds_object drawRectangle_tool
                   [utils.mouse_down (utils.mkOptions true false (pt 1 1));
                    utils.mouse_move (utils.mkOptions true false (pt 4 5));
                    utils.mouse_up (utils.mkOptions true false (pt 4 5))]
                   (drawRectangle.mkState None None false (Canvas.mk [] None ∅ 0))
                   _ _ eq_refl _)).
  vm_compute. reflexivity.
Defined.

Lemma drawRectangle_click_witness :
  ∃ h,
    utils.fire_all drawRectangle_tool
      [utils.mouse_down (utils.mkOptions true false (pt 1 1));
       utils.mouse_up (utils.mkOptions true false (pt 1 1))]
      (utils.mkHandlers false None None false
         (drawRectangle.mkState None None false (Canvas.mk [0; 1] None ∅ 2)) [] [])
    = Returns h
    ∧ Canvas.objects (drawRectangle.canvas (utils.toolState h)) = [0; 1].
Proof.
  destruct (drawRectangle_click (Canvas.mk [0; 1] None ∅ 2) (pt 1 1) (pt 1 1))
    as (h0 & h & Hinit & Hrun & Hobjs & _).
  - repeat constructor; cbn; lia.
  - injection Hinit as <-. exists h. split; [exact Hrun|exact Hobjs].
Defined.
